(** * Excel-to-database import: header normalisation, record shaping,
      persistence-time reconciliation, adapters and connection registry.

    A shallow embedding of [src/excel-parser.js], [src/database.js],
    the three adapters under [src/adapters/] and [processExcelFile] of
    [src/index.js], followed by the properties established for them. *)

From Stdlib Require Import NArith List Bool Ascii String Lia.
From stdpp Require Import base strings list gmap.

Local Open Scope N_scope.

(** ** JavaScript strings

    A JavaScript string is a sequence of UTF-16 code units.  String
    literals of the source are written as Rocq strings (UTF-8 bytes) and
    decoded by [js]. *)
Module JsString.

Abbreviation jsstring := (list N).

Fixpoint bytes (s : string) : list N :=
  match s with
  | EmptyString => []
  | String a s' => N_of_ascii a :: bytes s'
  end.

(** UTF-8 decoding: [need] continuation bytes are still expected for the
    code point accumulated in [acc]. *)
Fixpoint utf8_points (need : nat) (acc : N) (bs : list N) : list N :=
  match bs with
  | [] => []
  | b :: bs' =>
      match need with
      | O =>
          if b <? 128 then b :: utf8_points 0 0 bs'
          else if b <? 224 then utf8_points 1 (N.land b 31) bs'
          else if b <? 240 then utf8_points 2 (N.land b 15) bs'
          else utf8_points 3 (N.land b 7) bs'
      | S n =>
          let acc' := acc * 64 + N.land b 63 in
          match n with
          | O => acc' :: utf8_points 0 0 bs'
          | S _ => utf8_points n acc' bs'
          end
      end
  end.

Definition utf16_units (cp : N) : list N :=
  if cp <? 65536 then [cp]
  else [55296 + N.shiftr (cp - 65536) 10; 56320 + N.land (cp - 65536) 1023].

Definition js (s : string) : jsstring :=
  flat_map utf16_units (utf8_points 0 0 (bytes s)).

(** Truthiness of a string value: only the empty string is falsy. *)
Definition truthy (s : jsstring) : bool :=
  match s with [] => false | _ :: _ => true end.

(** The code units matched by [\s] and stripped by [trim]: ECMAScript
    WhiteSpace and LineTerminator. *)
Definition isWhiteSpace (c : N) : bool :=
  ((9 <=? c) && (c <=? 13)) || (c =? 32) || (c =? 160) || (c =? 5760)
  || ((8192 <=? c) && (c <=? 8202)) || (c =? 8232) || (c =? 8233)
  || (c =? 8239) || (c =? 8287) || (c =? 12288) || (c =? 65279).

Fixpoint skip_ws (s : jsstring) : jsstring :=
  match s with
  | [] => []
  | c :: s' => if isWhiteSpace c then skip_ws s' else s
  end.

(** [s.trim()] *)
Definition trim (s : jsstring) : jsstring :=
  rev (skip_ws (rev (skip_ws s))).

(** A string is tidy when it is not empty and neither starts nor ends
    with white space. *)
Definition tidy (s : jsstring) : Prop :=
  exists d r c, s = d :: r /\ last s = Some c
                /\ isWhiteSpace d = false /\ isWhiteSpace c = false.

(** [s.toLowerCase()], for the one-to-one case pairs of the scripts the
    header table is written in: Basic Latin, Latin-1 Supplement and
    Cyrillic (Arabic and CJK have no case).  Other code units are left
    as they are. *)
Definition lower_unit (c : N) : N :=
  if (65 <=? c) && (c <=? 90) then c + 32
  else if (192 <=? c) && (c <=? 222) && negb (c =? 215) then c + 32
  else if (1024 <=? c) && (c <=? 1039) then c + 80
  else if (1040 <=? c) && (c <=? 1071) then c + 32
  else c.

Definition toLowerCase (s : jsstring) : jsstring := map lower_unit s.

(** [s.replace(/\s+/g, '_')]: every maximal run of white space becomes
    one underscore.  [in_run] tells that the previous unit was white
    space. *)
Fixpoint replace_ws_go (in_run : bool) (s : jsstring) : jsstring :=
  match s with
  | [] => []
  | c :: s' =>
      if isWhiteSpace c
      then if in_run then replace_ws_go true s' else 95 :: replace_ws_go true s'
      else c :: replace_ws_go false s'
  end.

Definition replace_ws (s : jsstring) : jsstring := replace_ws_go false s.

(** [s.split(/\s+/)]: the pieces between maximal runs of white space,
    empty pieces at either end included; the head of the result is the
    piece being read. *)
Fixpoint split_ws_go (in_run : bool) (s : jsstring) : list jsstring :=
  match s with
  | [] => [[]]
  | c :: s' =>
      if isWhiteSpace c
      then if in_run then split_ws_go true s' else [] :: split_ws_go true s'
      else match split_ws_go false s' with
           | t :: ts => (c :: t) :: ts
           | [] => [[c]]
           end
  end.

Definition split_ws (s : jsstring) : list jsstring := split_ws_go false s.

(** [parts.join(' ')] *)
Fixpoint join_sp (parts : list jsstring) : jsstring :=
  match parts with
  | [] => []
  | [p] => p
  | p :: ps => p ++ 32 :: join_sp ps
  end.

(** The template literal [`${a} ${b}`]. *)
Definition spaced (a b : jsstring) : jsstring := a ++ 32 :: b.

End JsString.
Export JsString.

(** ** Plain objects with string values

    A record is the list of its own enumerable properties in property
    order: array-index keys in ascending order first, then the other
    keys in creation order. *)
Module JsObject.

Abbreviation obj := (list (jsstring * jsstring)).

Fixpoint obj_get (k : jsstring) (o : obj) : option jsstring :=
  match o with
  | [] => None
  | (k', v) :: o' => if decide (k' = k) then Some v else obj_get k o'
  end.

(** [o.k] read in a boolean context, and [o.k || ''] *)
Definition field_truthy (k : jsstring) (o : obj) : bool :=
  match obj_get k o with Some v => truthy v | None => false end.

Definition field_or_empty (k : jsstring) (o : obj) : jsstring :=
  match obj_get k o with Some v => v | None => [] end.

Definition digit (c : N) : bool := (48 <=? c) && (c <=? 57).

Definition decimal (s : jsstring) : N :=
  fold_left (fun n c => 10 * n + (c - 48)) s 0.

(** A key is an array index when it is the canonical decimal form of an
    integer below 2^32 - 1. *)
Definition array_index (k : jsstring) : option N :=
  match k with
  | [] => None
  | c :: rest =>
      if forallb digit k && (negb (c =? 48) || match rest with [] => true | _ => false end)
         && (length k <=? 10)%nat && (decimal k <? 4294967295)
      then Some (decimal k) else None
  end.

(** Position of a new array-index key: before the first entry that is
    not an array index or is a larger one. *)
Fixpoint insert_index (n : N) (k v : jsstring) (o : obj) : obj :=
  match o with
  | [] => [(k, v)]
  | (k', v') :: o' =>
      match array_index k' with
      | Some n' => if n' <? n then (k', v') :: insert_index n k v o'
                   else (k, v) :: o
      | None => (k, v) :: o
      end
  end.

Fixpoint replace_value (k v : jsstring) (o : obj) : obj :=
  match o with
  | [] => []
  | (k', v') :: o' =>
      if decide (k' = k) then (k', v) :: o' else (k', v') :: replace_value k v o'
  end.

(** [o[k] = v] *)
Definition obj_set (k v : jsstring) (o : obj) : obj :=
  match obj_get k o with
  | Some _ => replace_value k v o
  | None =>
      match array_index k with
      | Some n => insert_index n k v o
      | None => o ++ [(k, v)]
      end
  end.

(** [delete o[k]] *)
Definition obj_delete (k : jsstring) (o : obj) : obj :=
  filter (fun kv => kv.1 <> k) o.

Definition keys (o : obj) : list jsstring := map fst o.

(** The names every plain object inherits from [Object.prototype]. *)
Definition Object_prototype_names : list string :=
  [ "constructor"; "__defineGetter__"; "__defineSetter__"; "hasOwnProperty";
    "__lookupGetter__"; "__lookupSetter__"; "isPrototypeOf";
    "propertyIsEnumerable"; "toString"; "valueOf"; "__proto__";
    "toLocaleString" ]%string.

(** What reading [table[k]] on an object literal gives when it is not
    [undefined]: an own string value, or the member inherited under a
    name of [Object.prototype] (a function, or the prototype object for
    [__proto__]); both kinds are truthy unless the string is empty. *)
Inductive jsval :=
  | VString (s : jsstring)
  | VInherited (name : jsstring).

#[global] Instance jsval_eq_dec : EqDecision jsval.
Proof. solve_decision. Defined.

Definition val_truthy (v : jsval) : bool :=
  match v with VString s => truthy s | VInherited _ => true end.

(** The property key a value is converted to when used in [o[v]]: a
    string is its own key, the prototype object prints as
    [[object Object]] and a built-in function as its native source
    text. *)
Definition property_key (v : jsval) : jsstring :=
  match v with
  | VString s => s
  | VInherited name =>
      if decide (name = js "__proto__") then js "[object Object]"
      else js "function "
           ++ (if decide (name = js "constructor") then js "Object" else name)
           ++ js "() { [native code] }"
  end.

Fixpoint own (table : list (string * string)) (k : jsstring) : option jsstring :=
  match table with
  | [] => None
  | (k', v) :: table' => if decide (js k' = k) then Some (js v) else own table' k
  end.

(** [table[k]] for a table written as an object literal. *)
Definition prop (table : list (string * string)) (k : jsstring) : option jsval :=
  match own table k with
  | Some v => Some (VString v)
  | None =>
      if decide (k ∈ map js Object_prototype_names) then Some (VInherited k)
      else None
  end.

(** [if (table[k])]: the value when it is truthy. *)
Definition prop_truthy (table : list (string * string)) (k : jsstring) : option jsval :=
  match prop table k with
  | Some v => if val_truthy v then Some v else None
  | None => None
  end.

End JsObject.
Export JsObject.

(** ** Outcomes of fallible code: a value, or the error thrown. *)
Inductive result (E A : Type) : Type :=
  | Ok (a : A)
  | Err (e : E).
Arguments Ok {E A} a.
Arguments Err {E A} e.

Definition bind {E A B} (r : result E A) (k : A -> result E B) : result E B :=
  match r with
  | Ok a => k a
  | Err e => Err e
  end.

Notation "'try!' x <- r ; k" := (bind r (fun x => k))
  (at level 10, x name, r at level 100, k at level 200).

(** [xs.map(f)] where [f] may throw: the first exception ends the map. *)
Fixpoint map_result {E A B} (f : A -> result E B) (xs : list A) : result E (list B) :=
  match xs with
  | [] => Ok []
  | x :: xs' => try! y <- f x; try! ys <- map_result f xs'; Ok (y :: ys)
  end.

(** ** The spreadsheet parser ([src/excel-parser.js]) *)
Module ExcelParser.

(** Map of common header names in different languages to standardized
    field names. *)
Definition HEADER_MAPPINGS : list (string * string) :=
  [
    (* French *)
    ("matricule", "external_id");
    ("identifiant", "external_id");
    ("id_fr", "external_id");
    ("nom", "last_name");
    ("prenom", "first_name");
    ("nom et prenom", "name");
    ("nom_et_prenom", "name");
    ("datedenaissance", "birth_date");
    ("date de naissance", "birth_date");
    ("date_de_naissance", "birth_date");
    ("courriel", "email");
    ("adresse courriel", "email");
    ("adresse_courriel", "email");
    ("telephone", "phone");
    ("numero de telephone", "phone");
    ("numero_de_telephone", "phone");
    ("adresse", "address");
    ("ville", "city");
    ("etat", "state");
    ("code_postal", "zip");
    ("pays", "country");
    ("entreprise", "company");
    ("titre", "job_title");
    ("departement", "department");
    ("status_fr", "status");
    ("statut", "status");
    (* English *)
    ("id", "external_id");
    ("identifier", "external_id");
    ("name", "name");
    ("full name", "name");
    ("fullname", "name");
    ("full_name", "name");
    ("first name", "first_name");
    ("first_name", "first_name");
    ("firstname", "first_name");
    ("last name", "last_name");
    ("last_name", "last_name");
    ("lastname", "last_name");
    ("email", "email");
    ("email address", "email");
    ("email_address", "email");
    ("phone", "phone");
    ("phone number", "phone");
    ("phone_number", "phone");
    ("address", "address");
    ("city", "city");
    ("state", "state");
    ("zip", "zip");
    ("zip code", "zip");
    ("zip_code", "zip");
    ("postal code", "zip");
    ("postal_code", "zip");
    ("country", "country");
    ("company", "company");
    ("job title", "job_title");
    ("job_title", "job_title");
    ("department", "department");
    ("birth date", "birth_date");
    ("birth_date", "birth_date");
    ("date of birth", "birth_date");
    ("date_of_birth", "birth_date");
    ("status", "status");
    (* Additional English variations with different casing *)
    ("ID", "external_id");
    ("Id", "external_id");
    ("Name", "name");
    ("Full Name", "name");
    ("FullName", "name");
    ("First Name", "first_name");
    ("FirstName", "first_name");
    ("Last Name", "last_name");
    ("LastName", "last_name");
    ("Email", "email");
    ("Email Address", "email");
    ("Phone", "phone");
    ("Phone Number", "phone");
    ("Address", "address");
    ("City", "city");
    ("State", "state");
    ("Zip", "zip");
    ("Zip Code", "zip");
    ("Postal Code", "zip");
    ("Country", "country");
    ("Company", "company");
    ("Job Title", "job_title");
    ("Department", "department");
    ("Birth Date", "birth_date");
    ("BirthDate", "birth_date");
    ("Date of Birth", "birth_date");
    ("DOB", "birth_date");
    ("Status", "status");
    (* Russian *)
    ("идентификатор", "external_id");
    ("фамилия", "last_name");
    ("имя", "first_name");
    ("полное имя", "name");
    ("полное_имя", "name");
    ("дата рождения", "birth_date");
    ("дата_рождения", "birth_date");
    ("электронная почта", "email");
    ("электронная_почта", "email");
    ("телефон", "phone");
    ("номер телефона", "phone");
    ("номер_телефона", "phone");
    ("адрес", "address");
    ("город", "city");
    ("область", "state");
    ("почтовый индекс", "zip");
    ("почтовый_индекс", "zip");
    ("страна", "country");
    ("компания", "company");
    ("должность", "job_title");
    ("отдел", "department");
    ("статус", "status");
    (* Arabic *)
    ("رقم_التعريف", "external_id");
    ("معرف", "external_id");
    ("اسم_العائلة", "last_name");
    ("الاسم_الأول", "first_name");
    ("الاسم_الكامل", "name");
    ("تاريخ_الميلاد", "birth_date");
    ("البريد_الإلكتروني", "email");
    ("هاتف", "phone");
    ("رقم_الهاتف", "phone");
    ("عنوان", "address");
    ("مدينة", "city");
    ("ولاية", "state");
    ("الرمز_البريدي", "zip");
    ("بلد", "country");
    ("شركة", "company");
    ("المسمى_الوظيفي", "job_title");
    ("قسم", "department");
    ("الحالة", "status");
    (* Chinese *)
    ("标识符", "external_id");
    ("姓", "last_name");
    ("名", "first_name");
    ("全名", "name");
    ("出生日期", "birth_date");
    ("电子邮件", "email");
    ("电话", "phone");
    ("电话号码", "phone");
    ("地址", "address");
    ("城市", "city");
    ("州", "state");
    ("邮政编码", "zip");
    ("国家", "country");
    ("公司", "company");
    ("职位", "job_title");
    ("部门", "department");
    ("状态", "status")
  ]%string.

(** A cell of the row-major grid the spreadsheet reader yields: a hole
    or [undefined], [null], a string, or a number, boolean or date given
    by its truthiness and its [toString()] text. *)
Inductive cell :=
  | CUndefined
  | CNull
  | CString (s : jsstring)
  | COther (is_truthy : bool) (text : jsstring).

Abbreviation row := (list cell).

(** What the parser throws inside its [try]: the two explicit errors,
    and the TypeError of calling [toString] on [null]. *)
Inductive cause :=
  | NotEnoughData
  | NotEnoughInformation
  | TypeErrorOnNull.

(** The error the [catch] rethrows: [Failed to parse Excel file: ...]. *)
Inductive parse_error :=
  | FailedToParse (c : cause).

(** [logger.warn] about standard headers that are missing. *)
Inductive warning :=
  | MissingStandardHeaders (missing : list string).

(** [header ? header.toString().trim() : ''] *)
Definition headerText (c : cell) : jsstring :=
  match c with
  | CUndefined | CNull => []
  | CString s => if truthy s then trim s else []
  | COther t text => if t then trim text else []
  end.

Definition mapHeader (header : jsstring) : jsval :=
  match prop_truthy HEADER_MAPPINGS header with
  | Some v => v
  | None =>
      let lowerHeader := toLowerCase header in
      match prop_truthy HEADER_MAPPINGS lowerHeader with
      | Some v => v
      | None =>
          let normalizedHeader := replace_ws lowerHeader in
          match prop_truthy HEADER_MAPPINGS normalizedHeader with
          | Some v => v
          | None => VString normalizedHeader
          end
      end
  end.

(** [mappedHeaders.includes(name)] and [mappedHeaders.indexOf(name)] *)
Definition includes (name : string) (hs : list jsval) : bool :=
  bool_decide (VString (js name) ∈ hs).

Fixpoint indexOf (name : string) (hs : list jsval) : option nat :=
  match hs with
  | [] => None
  | h :: hs' =>
      if decide (h = VString (js name)) then Some O
      else option_map S (indexOf name hs')
  end.

Definition requiredHeaders : list string :=
  ["external_id"; "last_name"; "first_name"; "birth_date"; "status"]%string.

Definition missingHeaders (mappedHeaders : list jsval) : list string :=
  filter (fun h => includes h mappedHeaders = false) requiredHeaders.

(** [cell !== undefined && cell !== null && cell !== ''] *)
Definition filled (c : cell) : bool :=
  match c with
  | CUndefined | CNull => false
  | CString s => truthy s
  | COther _ _ => true
  end.

(** [row.length > 0 && row.some(...)] *)
Definition keepRow (r : row) : bool :=
  (0 <? length r)%nat && existsb filled r.

(** [row[index] !== undefined ? row[index].toString() : ''] *)
Definition cellText (c : cell) : result cause jsstring :=
  match c with
  | CUndefined => Ok []
  | CNull => Err TypeErrorOnNull
  | CString s => Ok s
  | COther _ text => Ok text
  end.

(** The [forEach] over the mapped headers: positions past the end of
    the row and falsy headers are skipped. *)
Fixpoint fillPerson (mappedHeaders : list jsval) (r : row) (person : obj)
  : result cause obj :=
  match mappedHeaders, r with
  | header :: hs, c :: r' =>
      if val_truthy header
      then try! v <- cellText c;
           fillPerson hs r' (obj_set (property_key header) v person)
      else fillPerson hs r' person
  | _, _ => Ok person
  end.

(** Combine first and last name if we have both but no full name. *)
Definition combineName (person : obj) : obj :=
  if negb (field_truthy (js "name") person)
     && field_truthy (js "first_name") person
     && field_truthy (js "last_name") person
  then obj_set (js "name")
         (trim (spaced (field_or_empty (js "last_name") person)
                       (field_or_empty (js "first_name") person)))
         person
  else person.

(** Special case for the French format: the name is rebuilt from the
    cells under the first [last_name] and [first_name] columns. *)
Definition frenchName (mappedHeaders : list jsval) (r : row) (person : obj)
  : result cause obj :=
  if negb (includes "name" mappedHeaders)
     && includes "first_name" mappedHeaders
     && includes "last_name" mappedHeaders
  then match indexOf "last_name" mappedHeaders, indexOf "first_name" mappedHeaders with
       | Some lastNameIndex, Some firstNameIndex =>
           match r !! lastNameIndex, r !! firstNameIndex with
           | Some lc, Some fc =>
               try! lastName <- cellText lc;
               try! firstName <- cellText fc;
               Ok (obj_set (js "name") (trim (spaced lastName firstName)) person)
           | _, _ => Ok person
           end
       | _, _ => Ok person
       end
  else Ok person.

Definition shapeRow (mappedHeaders : list jsval) (r : row) : result cause obj :=
  try! person <- fillPerson mappedHeaders r [];
  frenchName mappedHeaders r (combineName person).

(** The identification test on the mapped headers. *)
Definition identifiable (mappedHeaders : list jsval) : bool :=
  includes "name" mappedHeaders
  || (includes "first_name" mappedHeaders && includes "last_name" mappedHeaders)
  || includes "email" mappedHeaders
  || includes "external_id" mappedHeaders.

Definition mapHeaders (headerRow : row) : list jsval :=
  map mapHeader (map headerText headerRow).

(** The body of the [try] for the whole-sheet path, on the grid
    [rawData] read from the first sheet; the warnings logged on the way
    are returned with the outcome. *)
Definition parseRows (rawData : list row) : list warning * result cause (list obj) :=
  match rawData with
  | headerRow :: ((_ :: _) as dataRows) =>
      let mappedHeaders := mapHeaders headerRow in
      let warnings :=
        match missingHeaders mappedHeaders with
        | [] => []
        | missing => [MissingStandardHeaders missing]
        end in
      if identifiable mappedHeaders
      then (warnings, map_result (shapeRow mappedHeaders) (filter (fun r => keepRow r = true) dataRows))
      else (warnings, Err NotEnoughInformation)
  | _ => ([], Err NotEnoughData)
  end.

(** [parseExcel] without [options.useStreaming]: every error is caught
    and rethrown wrapped. *)
Definition parseExcel (rawData : list row) : list warning * result parse_error (list obj) :=
  match parseRows rawData with
  | (ws, Ok people) => (ws, Ok people)
  | (ws, Err c) => (ws, Err (FailedToParse c))
  end.

End ExcelParser.

(** ** The database engines

    The three client libraries (sqlite3, mysql2, pg) are external: an
    engine says, for each command issued on a handle, whether it
    succeeded and what the world is afterwards, and what opening a
    handle gives.  Code above it threads the world and keeps the trace
    of what was issued. *)
Module Engine.

Inductive dbkind := Sqlite | Mysql | Postgres.

(** The values bound by one [INSERT]: the five core columns and the
    additional fields ([None] is SQL [null]; otherwise the object whose
    JSON text is stored). *)
Record values := {
  v_external_id : jsstring;
  v_first_name : jsstring;
  v_last_name : jsstring;
  v_birth_date : jsstring;
  v_status : jsstring;
  v_additional_data : option obj
}.

Inductive command :=
  | Begin
  | Insert (v : values)
  | Commit
  | Rollback
  | Close
  | PoolEnd.

(** What [initializeDatabase] of an adapter is called with: a config
    object, or (for the SQLite branch) a path that may be undefined. *)
Inductive init_arg (config : Type) :=
  | WithConfig (c : config)
  | WithPath (path : option jsstring).
Arguments WithConfig {config} c.
Arguments WithPath {config} path.

Class Engine := {
  world : Type;
  config : Type;
  (** [process.env.DB_TYPE], [process.env.DB_PATH] and the config built
      from the environment for a database type *)
  env_DB_TYPE : option jsstring;
  env_DB_PATH : option jsstring;
  env_config : dbkind -> option jsstring -> config;
  (** [adapter.initializeDatabase(arg)]: the handle, or a rejection *)
  open : dbkind -> init_arg config -> world -> option nat * world;
  (** one command on a handle: success or failure *)
  exec : nat -> command -> world -> bool * world
}.

Inductive event `{Engine} :=
  | Opened (a : dbkind) (arg : init_arg config) (h : option nat)
  | Ran (h : nat) (c : command) (ok : bool).

End Engine.
Export Engine.

(** ** The adapters ([src/adapters/*.js]) *)
Module Adapter.

(** [{ inserted, errors }]; the empty-input answer [{ inserted: 0 }] has
    no [errors] property. *)
Record save_result := {
  inserted : nat;
  errors : option nat
}.

(** Top-level failures of a save: [Failed to commit transaction] of the
    SQLite adapter, [Failed to save to ... database] of the other two. *)
Inductive save_error :=
  | FailedToCommit
  | FailedToSave (a : dbkind) (during : command).

Inductive close_error :=
  | FailedToClose (a : dbkind).

(** The world together with the trace of engine calls. *)
Record io `{Engine} := {
  now : world;
  trace : list event
}.

Definition M `{Engine} (A : Type) : Type := io -> A * io.

Definition ret `{Engine} {A} (a : A) : M A := fun s => (a, s).

Definition seq `{Engine} {A B} (m : M A) (k : A -> M B) : M B :=
  fun s => let (a, s') := m s in k a s'.

Notation "'do!' x <- m ; k" := (seq m (fun x => k))
  (at level 10, x name, m at level 100, k at level 200).

Definition run `{Engine} (h : nat) (c : command) : M bool :=
  fun s =>
    let (ok, w') := exec h c (now s) in
    (ok, {| now := w'; trace := trace s ++ [Ran h c ok] |}).

(** Skip records that don't have enough identifying information. *)
Definition eligible (person : obj) : bool :=
  negb (negb (field_truthy (js "birth_date") person)
        && negb (field_truthy (js "external_id") person)
        && negb (field_truthy (js "first_name") person
                 && field_truthy (js "last_name") person)).

Definition knownFields : list string :=
  ["external_id"; "first_name"; "last_name"; "birth_date"; "status"]%string.

(** The rest properties of the destructuring. *)
Definition additionalData (person : obj) : obj :=
  filter (fun kv => kv.1 ∉ map js knownFields) person.

Definition insertValues (person : obj) : values :=
  {| v_external_id := field_or_empty (js "external_id") person;
     v_first_name := field_or_empty (js "first_name") person;
     v_last_name := field_or_empty (js "last_name") person;
     v_birth_date := field_or_empty (js "birth_date") person;
     v_status := field_or_empty (js "status") person;
     v_additional_data :=
       match additionalData person with
       | [] => None
       | extra => Some extra
       end |}.

(** One record of the batch: skipped, or inserted with the outcome
    counted.  The counters are [(inserted, errors)]. *)
Definition insertPerson `{Engine} (h : nat) (counts : nat * nat) (person : obj)
  : M (nat * nat) :=
  if eligible person
  then do! ok <- run h (Insert (insertValues person));
       ret (if ok then (S counts.1, counts.2) else (counts.1, S counts.2))
  else ret counts.

Fixpoint insertEach `{Engine} (h : nat) (counts : nat * nat) (people : list obj)
  : M (nat * nat) :=
  match people with
  | [] => ret counts
  | person :: rest =>
      do! counts' <- insertPerson h counts person;
      insertEach h counts' rest
  end.

(** [for (i = 0; i < l.length; i += size) l.slice(i, i + size)]; the
    loop makes at most [length l] rounds when [size] is positive. *)
Fixpoint slices {A} (rounds size : nat) (l : list A) : list (list A) :=
  match rounds with
  | O => []
  | S rounds' =>
      match l with
      | [] => []
      | _ :: _ => take size l :: slices rounds' size (drop size l)
      end
  end.

Definition batches {A} (size : nat) (l : list A) : list (list A) :=
  slices (length l) size l.

Fixpoint insertBatches `{Engine} (h : nat) (counts : nat * nat) (bs : list (list obj))
  : M (nat * nat) :=
  match bs with
  | [] => ret counts
  | batch :: rest =>
      do! counts' <- insertEach h counts batch;
      insertBatches h counts' rest
  end.

Module SqliteAdapter.

(** The result of [BEGIN TRANSACTION] is not looked at; a failed
    [COMMIT] rolls back and rejects. *)
Definition saveToDatabase `{Engine} (db : nat) (people : list obj)
  : M (result save_error save_result) :=
  match people with
  | [] => ret (Ok {| inserted := 0; errors := None |})
  | _ :: _ =>
      do! _ <- run db Begin;
      do! counts <- insertEach db (0, 0)%nat people;
      do! committed <- run db Commit;
      if committed
      then ret (Ok {| inserted := counts.1; errors := Some counts.2 |})
      else do! _ <- run db Rollback; ret (Err FailedToCommit)
  end.

Definition closeDatabase `{Engine} (db : nat) : M (result close_error unit) :=
  do! ok <- run db Close;
  ret (if ok then Ok tt else Err (FailedToClose Sqlite)).

End SqliteAdapter.

(** The MySQL and PostgreSQL saves have the same body over their own
    client: sub-batches of 100, a rollback (its own failure swallowed)
    and a wrapped error when beginning or committing fails. *)
Definition saveBatched `{Engine} (a : dbkind) (connection : nat) (people : list obj)
  : M (result save_error save_result) :=
  match people with
  | [] => ret (Ok {| inserted := 0; errors := None |})
  | _ :: _ =>
      do! begun <- run connection Begin;
      if begun
      then do! counts <- insertBatches connection (0, 0)%nat (batches 100 people);
           do! committed <- run connection Commit;
           if committed
           then ret (Ok {| inserted := counts.1; errors := Some counts.2 |})
           else do! _ <- run connection Rollback; ret (Err (FailedToSave a Commit))
      else do! _ <- run connection Rollback; ret (Err (FailedToSave a Begin))
  end.

Module MysqlAdapter.

Definition saveToDatabase `{Engine} (connection : nat) (people : list obj)
  : M (result save_error save_result) :=
  saveBatched Mysql connection people.

Definition closeDatabase `{Engine} (connection : nat) : M (result close_error unit) :=
  do! ok <- run connection Close;
  ret (if ok then Ok tt else Err (FailedToClose Mysql)).

End MysqlAdapter.

Module PostgresAdapter.

Definition saveToDatabase `{Engine} (connection : nat) (people : list obj)
  : M (result save_error save_result) :=
  saveBatched Postgres connection people.

(** Ending the client and, when forced, the pool; both failures are
    logged and swallowed. *)
Definition closeDatabase `{Engine} (db : nat) (forceClose : bool)
  : M (result close_error unit) :=
  do! _ <- run db Close;
  if forceClose
  then do! _ <- run db PoolEnd; ret (Ok tt)
  else ret (Ok tt).

End PostgresAdapter.

(** The adapter interface the registry works with. *)
Definition adapter_save `{Engine} (a : dbkind) : nat -> list obj -> M (result save_error save_result) :=
  match a with
  | Sqlite => SqliteAdapter.saveToDatabase
  | Mysql => MysqlAdapter.saveToDatabase
  | Postgres => PostgresAdapter.saveToDatabase
  end.

(** [adapter.closeDatabase(connection, forceClose)]; only the
    PostgreSQL adapter has the second parameter. *)
Definition adapter_close `{Engine} (a : dbkind) (connection : nat) (forceClose : bool)
  : M (result close_error unit) :=
  match a with
  | Sqlite => SqliteAdapter.closeDatabase connection
  | Mysql => MysqlAdapter.closeDatabase connection
  | Postgres => PostgresAdapter.closeDatabase connection forceClose
  end.

End Adapter.
Export Adapter.

(** ** The database module ([src/database.js]) *)
Module Database.

(** Map of common field name variations to standardized names. *)
Definition fieldMappings : list (string * string) :=
  [
    (* External ID variations *)
    ("id", "external_id");
    ("ID", "external_id");
    ("identifier", "external_id");
    ("Identifier", "external_id");
    ("External ID", "external_id");
    ("External Id", "external_id");
    ("EXTERNAL_ID", "external_id");
    (* Name variations *)
    ("Name", "name");
    ("NAME", "name");
    (* First name variations *)
    ("First Name", "first_name");
    ("FirstName", "first_name");
    ("firstname", "first_name");
    ("firstName", "first_name");
    ("FIRST_NAME", "first_name");
    ("prenom", "first_name");
    (* Last name variations *)
    ("Last Name", "last_name");
    ("LastName", "last_name");
    ("lastname", "last_name");
    ("lastName", "last_name");
    ("LAST_NAME", "last_name");
    ("nom", "last_name");
    (* Birth date variations *)
    ("Birth Date", "birth_date");
    ("BirthDate", "birth_date");
    ("birthdate", "birth_date");
    ("birthDate", "birth_date");
    ("BIRTH_DATE", "birth_date");
    ("date_of_birth", "birth_date");
    ("Date of Birth", "birth_date");
    ("DOB", "birth_date");
    (* Status variations *)
    ("Status", "status");
    ("STATUS", "status");
    ("statut", "status")
  ]%string.

(** One round of the [forEach] over [Object.entries(person)]. *)
Definition mapEntry (normalized : obj) (entry : jsstring * jsstring) : obj :=
  match prop_truthy fieldMappings entry.1 with
  | Some target =>
      let normalized' := obj_set (property_key target) entry.2 normalized in
      if decide (VString entry.1 = target) then normalized'
      else obj_delete entry.1 normalized'
  | None => normalized
  end.

Definition applyMappings (person : obj) : obj :=
  fold_left mapEntry person person.

(** If we have name but not first_name and last_name. *)
Definition splitName (normalized : obj) : obj :=
  if field_truthy (js "name") normalized
     && (negb (field_truthy (js "first_name") normalized)
         || negb (field_truthy (js "last_name") normalized))
  then
    let nameParts := split_ws (trim (field_or_empty (js "name") normalized)) in
    if (2 <=? length nameParts)%nat
    then
      let normalized1 :=
        if negb (field_truthy (js "last_name") normalized)
        then obj_set (js "last_name") (hd [] nameParts) normalized
        else normalized in
      if negb (field_truthy (js "first_name") normalized1)
      then obj_set (js "first_name") (join_sp (tl nameParts)) normalized1
      else normalized1
    else normalized
  else normalized.

(** If we have first_name and last_name but not name. *)
Definition joinName (normalized : obj) : obj :=
  if negb (field_truthy (js "name") normalized)
     && field_truthy (js "first_name") normalized
     && field_truthy (js "last_name") normalized
  then obj_set (js "name")
         (trim (spaced (field_or_empty (js "last_name") normalized)
                       (field_or_empty (js "first_name") normalized)))
         normalized
  else normalized.

Definition normalizePersonFields (person : obj) : obj :=
  joinName (splitName (applyMappings person)).

(** [getAdapter]: the switch on [dbType?.toLowerCase()]. *)
Definition getAdapter (dbType : jsstring) : dbkind :=
  let t := toLowerCase dbType in
  if decide (t = js "mysql") then Mysql
  else if decide (t = js "postgres") then Postgres
  else if decide (t = js "postgresql") then Postgres
  else Sqlite.

(** The connection object built by [getConnection]; [ref] is the
    identity of the freshly allocated object. *)
Record connectionObject := {
  ref : nat;
  connection : nat;
  adapter : dbkind;
  type : jsstring
}.

(** The [options] of [getConnection]; every member may be missing. *)
Record options `{Engine} := {
  opt_type : option jsstring;
  opt_path : option jsstring;
  opt_config : option config;
  opt_poolSize : option jsstring
}.

Definition no_options `{Engine} : options :=
  {| opt_type := None; opt_path := None; opt_config := None; opt_poolSize := None |}.

(** The module state: the [activeConnections] map, over the engines'
    world, with the number of objects allocated so far. *)
Record state `{Engine} := {
  activeConnections : gmap jsstring connectionObject;
  allocated : nat;
  sys : io
}.

Inductive init_error :=
  | FailedToInitialize (a : dbkind).

Definition R `{Engine} (A : Type) : Type := state -> A * state.

(** An engine computation run on the world of the module state. *)
Definition lift `{Engine} {A} (m : M A) : R A :=
  fun st =>
    let (a, s') := m (sys st) in
    (a, {| activeConnections := activeConnections st;
           allocated := allocated st;
           sys := s' |}).

(** [a || b] on optional strings: the first truthy one. *)
Definition or_else (a b : option jsstring) : option jsstring :=
  match a with
  | Some s => if truthy s then a else b
  | None => b
  end.

Definition initialize `{Engine} (a : dbkind) (arg : init_arg config) : M (option nat) :=
  fun s =>
    let (h, w') := open a arg (now s) in
    (h, {| now := w'; trace := trace s ++ [Opened a arg h] |}).

Definition getConnection `{Engine} (connectionId : option jsstring) (opts : options)
  : R (result init_error connectionObject) :=
  fun st =>
    let connectionId := default (js "default") connectionId in
    match activeConnections st !! connectionId with
    | Some connectionObject => (Ok connectionObject, st)
    | None =>
        let dbType :=
          default (js "sqlite") (or_else (or_else (opt_type opts) env_DB_TYPE) (Some (js "sqlite"))) in
        let adapter := getAdapter dbType in
        let arg :=
          if decide (dbType = js "mysql")
          then WithConfig (default (env_config Mysql None) (opt_config opts))
          else if decide (dbType = js "postgres" \/ dbType = js "postgresql")
          then WithConfig (default (env_config Postgres (opt_poolSize opts)) (opt_config opts))
          else WithPath (or_else (opt_path opts) env_DB_PATH) in
        match lift (initialize adapter arg) st with
        | (Some connection, st') =>
            let connectionObject :=
              {| ref := allocated st'; connection := connection;
                 adapter := adapter; type := dbType |} in
            (Ok connectionObject,
             {| activeConnections := <[connectionId := connectionObject]> (activeConnections st');
                allocated := S (allocated st');
                sys := sys st' |})
        | (None, st') => (Err (FailedToInitialize adapter), st')
        end
    end.

Definition closeConnection `{Engine} (connectionId : option jsstring) (forceClose : bool)
  : R (result close_error unit) :=
  fun st =>
    let connectionId := default (js "default") connectionId in
    match activeConnections st !! connectionId with
    | Some connectionObject =>
        let force :=
          if decide (type connectionObject = js "postgres"
                     \/ type connectionObject = js "postgresql")
          then forceClose else false in
        match lift (adapter_close (adapter connectionObject) (connection connectionObject) force) st with
        | (Ok _, st') =>
            (Ok tt,
             {| activeConnections := delete connectionId (activeConnections st');
                allocated := allocated st';
                sys := sys st' |})
        | (Err e, st') => (Err e, st')
        end
    | None => (Ok tt, st)
    end.

(** What [saveToDatabase] is given: a connection object, or (backward
    compatibility) a bare SQLite handle. *)
Inductive db_argument :=
  | ConnectionObject (c : connectionObject)
  | BareHandle (h : nat).

Definition saveToDatabase `{Engine} (db : db_argument) (people : list obj)
  : M (result save_error save_result) :=
  let normalizedPeople := map normalizePersonFields people in
  match db with
  | ConnectionObject c => adapter_save (adapter c) (connection c) normalizedPeople
  | BareHandle h => SqliteAdapter.saveToDatabase h normalizedPeople
  end.

End Database.
Export Database.

(** ** The import ([processExcelFile] of [src/index.js]) *)
Module Index.

(** A JavaScript number that is a count, [undefined], or [NaN]. *)
Inductive count :=
  | Num (n : nat)
  | Undefined
  | NaN.

Definition of_errors (e : option nat) : count :=
  match e with Some n => Num n | None => Undefined end.

(** [total += x] *)
Definition add (total x : count) : count :=
  match total, x with
  | Num a, Num b => Num (a + b)
  | _, _ => NaN
  end.

Record totals := {
  total_inserted : nat;
  total_errors : count
}.

Inductive import_error :=
  | ParseError (e : ExcelParser.parse_error)
  | ConnectError (e : init_error)
  | SaveError (e : save_error)
  | CloseError (e : close_error).

(** The options of [processExcelFile] that the save path reads;
    [chunkSize] is a row count, [0] standing for a missing one. *)
Record import_options `{Engine} := {
  connectionId : option jsstring;
  dbOptions : options;
  chunkSize : N
}.

Fixpoint saveChunks `{Engine} (db : connectionObject) (acc : totals) (chunks : list (list obj))
  : R (result import_error totals) :=
  match chunks with
  | [] => fun st => (Ok acc, st)
  | chunk :: rest =>
      fun st =>
        match lift (saveToDatabase (ConnectionObject db) chunk) st with
        | (Ok r, st') =>
            saveChunks db
              {| total_inserted := total_inserted acc + inserted r;
                 total_errors := add (total_errors acc) (of_errors (errors r)) |}
              rest st'
        | (Err e, st') => (Err (SaveError e), st')
        end
  end.

(** The [try] block after the file has been parsed into [parsed]. *)
Definition importPeople `{Engine} (parsed : result ExcelParser.parse_error (list obj))
  (o : import_options) : R (result import_error totals) :=
  fun st =>
    match parsed with
    | Err e => (Err (ParseError e), st)
    | Ok people =>
        match getConnection (connectionId o) (dbOptions o) st with
        | (Err e, st1) => (Err (ConnectError e), st1)
        | (Ok db, st1) =>
            let chunkSize := if (chunkSize o =? 0)%N then 100000%N else chunkSize o in
            let saved :=
              if (N.of_nat (length people) <=? chunkSize)%N
              then match lift (saveToDatabase (ConnectionObject db) people) st1 with
                   | (Ok r, st2) =>
                       (Ok {| total_inserted := inserted r;
                              total_errors := of_errors (errors r) |}, st2)
                   | (Err e, st2) => (Err (SaveError e), st2)
                   end
              else saveChunks db {| total_inserted := 0; total_errors := Num 0 |}
                     (batches (N.to_nat chunkSize) people) st1 in
            match saved with
            | (Ok t, st2) =>
                match closeConnection (connectionId o) false st2 with
                | (Ok _, st3) => (Ok t, st3)
                | (Err e, st3) => (Err (CloseError e), st3)
                end
            | (Err e, st2) => (Err e, st2)
            end
        end
    end.

(** [processExcelFile]: on any error the connection is closed again
    (a failure of that close is only logged) and the error rethrown. *)
Definition processExcelFile `{Engine} (parsed : result ExcelParser.parse_error (list obj))
  (o : import_options) : R (result import_error totals) :=
  fun st =>
    match importPeople parsed o st with
    | (Ok t, st') => (Ok t, st')
    | (Err e, st') => (Err e, (closeConnection (connectionId o) false st').2)
    end.

End Index.
Export Index.

(** ** The header normaliser as the specification words it

    Lookup order: exact match, lowercase match,
    lowercase-with-spaces-replaced-by-underscores match, and otherwise
    the normalized-but-unmapped string.  A match is an entry of the
    mapping table. *)
Module Spec.



(** The canonical fields of a person record. *)
Definition canonical_fields : list string :=
  ["external_id"; "first_name"; "last_name"; "name"; "birth_date"; "status"]%string.

Definition canonical (k : jsstring) : Prop :=
  k ∈ map js canonical_fields.

End Spec.

(** ** A small engine to run the code on

    Handles are numbered in the order they are opened; every command
    succeeds except an [INSERT] whose status does not fit the 50
    characters of the column. *)
Module Sample.

Definition engine : Engine :=
  {| world := nat * list values;
     config := unit;
     env_DB_TYPE := None;
     env_DB_PATH := None;
     env_config := fun _ _ => tt;
     open := fun _ _ w => (Some w.1, (S w.1, w.2));
     exec := fun _ c w =>
       match c with
       | Insert v =>
           if (50 <? length (v_status v))%nat then (false, w)
           else (true, (w.1, w.2 ++ [v]))
       | _ => (true, w)
       end |}.

Definition start : @state engine :=
  {| activeConnections := ∅;
     allocated := 0;
     sys := @Build_io engine (0%nat, []) [] |}.

Definition record (fields : list (string * string)) : obj :=
  map (fun kv => (js kv.1, js kv.2)) fields.

Definition cells (texts : list string) : ExcelParser.row :=
  map (fun s => ExcelParser.CString (js s)) texts.

(** A batch with a record the engine rejects and one without
    identification. *)
Definition people : list obj :=
  [ record [("external_id", "FRSE2X8S"); ("status", "Inactif")];
    record [("status", "Actif")];
    record [("birth_date", "1984-09-21");
            ("status", "a status that is far too long for the fifty characters of the column")];
    record [("first_name", "David"); ("last_name", "Girard")] ].

End Sample.

(** ** The streaming path of the parser ([parseExcelStreaming])

    The spreadsheet reader is external.  [readRows n] is the grid that
    reading the file with [sheetRows: n] and converting the first sheet
    gives ([0] is no limit), and [totalRows] is the row count taken from
    the sheet range. *)
Module ExcelStreaming.
Import ExcelParser.

(** What is thrown inside the [try] of the streaming path: the
    TypeError of mapping over a header row that is undefined, or what
    the shaping throws. *)
Inductive stream_cause :=
  | NoHeaderRow
  | Thrown (c : cause).

(** [Failed to parse Excel file with streaming: ...] *)
Inductive stream_error :=
  | FailedToParseStreaming (c : stream_cause).

(** What [parseExcel] rethrows: its own failure, or the streaming
    failure wrapped once more. *)
Inductive any_parse_error :=
  | OfSheet (e : parse_error)
  | OfStreaming (e : stream_error).

Definition processChunk (readRows : nat -> list row) (mappedHeaders : list jsval)
  (startRow endRow : nat) : result cause (list obj) :=
  map_result (shapeRow mappedHeaders)
    (filter (fun r => keepRow r = true) (drop startRow (readRows endRow))).

(** [for (startRow = 1; startRow < totalRows; startRow += chunkSize)];
    the loop makes at most [totalRows] rounds when [chunkSize] is
    positive. *)
Fixpoint chunkLoop (readRows : nat -> list row) (totalRows : nat)
  (mappedHeaders : list jsval) (chunkSize rounds startRow : nat)
  : result cause (list obj) :=
  match rounds with
  | O => Ok []
  | S rounds' =>
      if (startRow <? totalRows)%nat
      then try! chunk <- processChunk readRows mappedHeaders startRow
                           (Nat.min (startRow + chunkSize) totalRows);
           try! rest <- chunkLoop readRows totalRows mappedHeaders chunkSize rounds'
                          (startRow + chunkSize);
           Ok (chunk ++ rest)
      else Ok []
  end.

(** The body of the [try]; [chunkSize] is a row count, [0] standing
    for a missing one. *)
Definition streamRows (readRows : nat -> list row) (totalRows : nat) (chunkSize : N)
  : list warning * result stream_cause (list obj) :=
  match readRows 1%nat with
  | [] => ([], Err NoHeaderRow)
  | headerRow :: _ =>
      let mappedHeaders := mapHeaders headerRow in
      let warnings :=
        match missingHeaders mappedHeaders with
        | [] => []
        | missing => [MissingStandardHeaders missing]
        end in
      if identifiable mappedHeaders
      then
        let chunkSize := if (chunkSize =? 0)%N then 1000%N else chunkSize in
        (warnings,
         match chunkLoop readRows totalRows mappedHeaders (N.to_nat chunkSize)
                 totalRows 1%nat with
         | Ok people => Ok people
         | Err c => Err (Thrown c)
         end)
      else (warnings, Err (Thrown NotEnoughInformation))
  end.

Definition parseExcelStreaming (readRows : nat -> list row) (totalRows : nat)
  (chunkSize : N) : list warning * result stream_error (list obj) :=
  match streamRows readRows totalRows chunkSize with
  | (ws, Ok people) => (ws, Ok people)
  | (ws, Err c) => (ws, Err (FailedToParseStreaming c))
  end.

(** [parseExcel(filePath, options)] with both of its paths. *)
Definition parseExcelWith (useStreaming : bool) (readRows : nat -> list row)
  (totalRows : nat) (chunkSize : N)
  : list warning * result any_parse_error (list obj) :=
  if useStreaming
  then match parseExcelStreaming readRows totalRows chunkSize with
       | (ws, Ok people) => (ws, Ok people)
       | (ws, Err e) => (ws, Err (OfStreaming e))
       end
  else match parseExcel (readRows 0%nat) with
       | (ws, Ok people) => (ws, Ok people)
       | (ws, Err e) => (ws, Err (OfSheet e))
       end.

(** A reader that shows the grid [grid], all of it or its first [n]
    rows. *)
Definition reader (grid : list row) (n : nat) : list row :=
  match n with
  | O => grid
  | S _ => take n grid
  end.

End ExcelStreaming.

(** ** The schema update of the SQLite adapter ([initializeDatabase])

    The column list of an existing table is compared with the required
    columns, and one [ALTER TABLE] is issued per missing column. *)
Module SqliteSchema.







End SqliteSchema.

(** ** The logger's level test (logger module)

    [LOG_LEVELS[configuredLevel]] is a number for the four levels, an
    inherited member (which compares as NaN) for a name of
    [Object.prototype], and undefined otherwise. *)
Module Logger.

Definition LOG_LEVELS : list (string * N) :=
  [ ("error", 0); ("warn", 1); ("info", 2); ("debug", 3) ]%string.

Inductive level_value :=
  | Level (n : N)
  | NotANumber.

Fixpoint own_level (table : list (string * N)) (k : jsstring) : option N :=
  match table with
  | [] => None
  | (k', n) :: table' => if decide (js k' = k) then Some n else own_level table' k
  end.

Definition level_of (name : jsstring) : option level_value :=
  match own_level LOG_LEVELS name with
  | Some n => Some (Level n)
  | None =>
      if decide (name ∈ map js Object_prototype_names) then Some NotANumber
      else None
  end.

(** [(process.env.LOG_LEVEL || 'info').toLowerCase()] and the level it
    selects. *)
Definition configuredLevel (env_LOG_LEVEL : option jsstring) : jsstring :=
  toLowerCase (match env_LOG_LEVEL with
               | Some s => if truthy s then s else js "info"
               | None => js "info"
               end).

Definition currentLogLevel (env_LOG_LEVEL : option jsstring) : level_value :=
  match level_of (configuredLevel env_LOG_LEVEL) with
  | Some v => v
  | None => Level 2
  end.

(** [currentLogLevel >= LOG_LEVELS.level]: whether a message of the
    level numbered [n] is written. *)
Definition writes (env_LOG_LEVEL : option jsstring) (n : N) : bool :=
  match currentLogLevel env_LOG_LEVEL with
  | Level current => (n <=? current)%N
  | NotANumber => false
  end.

End Logger.

(** ** Reference views used to state properties *)
Module Reference.
Import ExcelParser.

(** The values of the entries of a record whose key the alias table
    maps to [target], in property order. *)
Definition aliasValues (target : jsstring) (person : obj) : list jsstring :=
  omap (fun kv =>
          match prop_truthy fieldMappings kv.1 with
          | Some t => if decide (property_key t = target) then Some kv.2 else None
          | None => None
          end) person.


(** The registry keeps its objects apart: every cached object was
    allocated before now, and two identifiers never share one. *)
Definition registry_ok `{Engine} (st : state) : Prop :=
  (forall id c, activeConnections st !! id = Some c -> (ref c < allocated st)%nat)
  /\ (forall id1 id2 c1 c2,
         activeConnections st !! id1 = Some c1 ->
         activeConnections st !! id2 = Some c2 ->
         ref c1 = ref c2 -> id1 = id2).

End Reference.

(** ** An engine on which everything fails

    Nothing can be opened and every command is rejected. *)
Module Faulty.

Definition engine : Engine :=
  {| world := unit;
     config := unit;
     env_DB_TYPE := None;
     env_DB_PATH := None;
     env_config := fun _ _ => tt;
     open := fun _ _ w => (None, w);
     exec := fun _ _ w => (false, w) |}.

Definition start : @state engine :=
  {| activeConnections := ∅;
     allocated := 0;
     sys := @Build_io engine tt [] |}.

(** A registry that still holds a SQLite connection under [x]. *)
Definition cached : connectionObject :=
  {| ref := 0; connection := 0; adapter := Sqlite; type := js "sqlite" |}.

Definition holding : @state engine :=
  {| activeConnections := {[ js "x" := cached ]};
     allocated := 1;
     sys := @Build_io engine tt [] |}.

End Faulty.

(** * Properties *)

(** ** Strings *)
Section StringFacts.

Lemma truthy_true (s : jsstring) : truthy s = true <-> s <> [].
Proof. destruct s; simpl; split; congruence. Qed.

Lemma skip_ws_shape (s : jsstring) :
  skip_ws s = [] \/ exists c r, skip_ws s = c :: r /\ isWhiteSpace c = false.
Proof.
  induction s as [|c s IH]; simpl; [by left|].
  destruct (isWhiteSpace c) eqn:E; [exact IH|].
  right. by exists c, s.
Qed.

Lemma skip_ws_snoc (s : jsstring) (d : N) :
  isWhiteSpace d = false -> skip_ws (s ++ [d]) = skip_ws s ++ [d].
Proof.
  intros Hd. induction s as [|c s IH]; simpl.
  - by rewrite Hd.
  - destruct (isWhiteSpace c); [exact IH | done].
Qed.

Lemma trim_shape (s : jsstring) : trim s = [] \/ tidy (trim s).
Proof.
  unfold trim.
  destruct (skip_ws_shape s) as [-> | (d & t & -> & Hd)]; [by left|].
  assert (E : rev (skip_ws (rev (d :: t))) = d :: rev (skip_ws (rev t))).
  { simpl. rewrite skip_ws_snoc by done. rewrite rev_app_distr. done. }
  rewrite E. right. exists d, (rev (skip_ws (rev t))).
  destruct (skip_ws_shape (rev t)) as [E' | (c & r & E' & Hc)]; rewrite E'; simpl.
  - exists d. done.
  - exists c. repeat split; try done.
    change (d :: rev r ++ [c]) with ((d :: rev r) ++ [c]). apply last_snoc.
Qed.

Lemma split_ws_go_pieces (s : jsstring) :
  s <> [] -> (forall c, last s = Some c -> isWhiteSpace c = false) ->
  Forall (fun t => t <> []) (split_ws_go true s)
  /\ forall b, Forall (fun t => t <> []) (tl (split_ws_go b s)).
Proof.
  induction s as [|c s IH]; [done|]. intros _ Hlast.
  destruct (decide (s = [])) as [-> | Hs].
  - simpl. rewrite (Hlast c eq_refl). split; [|intros b]; simpl; repeat constructor; done.
  - assert (Hlast' : forall c', last s = Some c' -> isWhiteSpace c' = false).
    { intros c' Hc'. apply Hlast. destruct s; [done|]. exact Hc'. }
    destruct (IH Hs Hlast') as [IH1 IH2].
    simpl. destruct (isWhiteSpace c) eqn:E.
    + split; [exact IH1|]. intros [|]; simpl; [apply IH2 | exact IH1].
    + specialize (IH2 false).
      destruct (split_ws_go false s) as [|t ts]; simpl in *.
      * split; [|intros b]; repeat constructor; done.
      * split; [|intros b]; simpl; [constructor|]; done.
Qed.

Lemma split_ws_tidy (s : jsstring) :
  tidy s -> Forall (fun t => t <> []) (split_ws s).
Proof.
  intros (d & r & c & -> & Hlast & Hd & Hc).
  unfold split_ws. simpl. rewrite Hd.
  destruct (decide (r = [])) as [-> | Hr]; [simpl; repeat constructor; done|].
  assert (Hlast' : forall c', last r = Some c' -> isWhiteSpace c' = false).
  { intros c' Hc'. destruct r; [done|]. simpl in Hlast. congruence. }
  destruct (split_ws_go_pieces r Hr Hlast') as [_ H2]. specialize (H2 false).
  destruct (split_ws_go false r) as [|t ts]; simpl in *; [|constructor]; try done.
  repeat constructor; done.
Qed.

(** The pieces of a trimmed string: when there are at least two, the
    first one and the rest joined by spaces are not empty. *)
Lemma split_trim_pieces (s : jsstring) :
  (2 <= length (split_ws (trim s)))%nat ->
  truthy (hd [] (split_ws (trim s))) = true
  /\ truthy (join_sp (tl (split_ws (trim s)))) = true.
Proof.
  intros Hlen. destruct (trim_shape s) as [E | Ht].
  { rewrite E in Hlen. simpl in Hlen. lia. }
  pose proof (split_ws_tidy _ Ht) as Hne.
  destruct (split_ws (trim s)) as [|p [|q qs]]; simpl in Hlen; try lia.
  apply Forall_cons in Hne as [Hp Hne]. apply Forall_cons in Hne as [Hq _].
  split; [by apply truthy_true|].
  apply truthy_true. simpl. destruct qs; [done|]. by destruct q.
Qed.

End StringFacts.

(** ** Objects *)
Section ObjectFacts.

Lemma obj_get_replace_value (k v k' : jsstring) (o : obj) :
  obj_get k' (replace_value k v o)
  = if decide (k = k') then (fun _ => v) <$> obj_get k o else obj_get k' o.
Proof.
  induction o as [|[k0 v0] o IH]; simpl.
  - by case_decide.
  - destruct (decide (k0 = k)) as [-> | Hne]; simpl.
    + destruct (decide (k = k')) as [-> | Hne']; by repeat case_decide.
    + rewrite IH. destruct (decide (k0 = k')) as [-> | Hne'].
      * by rewrite decide_False by congruence.
      * done.
Qed.

Lemma obj_get_insert_index (n : N) (k v k' : jsstring) (o : obj) :
  obj_get k o = None ->
  obj_get k' (insert_index n k v o)
  = if decide (k = k') then Some v else obj_get k' o.
Proof.
  induction o as [|[k0 v0] o IH]; simpl; intros Hnone.
  - done.
  - destruct (decide (k0 = k)) as [|Hne]; [done|].
    destruct (array_index k0) as [n'|]; [destruct (n' <? n)|]; simpl;
      try done.
    rewrite IH by done.
    destruct (decide (k0 = k')) as [-> | Hne']; [|done].
    by rewrite decide_False by congruence.
Qed.

Lemma obj_get_app (k : jsstring) (o1 o2 : obj) :
  obj_get k (o1 ++ o2)
  = match obj_get k o1 with Some v => Some v | None => obj_get k o2 end.
Proof.
  induction o1 as [|[k0 v0] o1 IH]; simpl; [done|]. by case_decide.
Qed.

Lemma obj_get_set (k v k' : jsstring) (o : obj) :
  obj_get k' (obj_set k v o)
  = if decide (k = k') then Some v else obj_get k' o.
Proof.
  unfold obj_set. destruct (obj_get k o) as [v0|] eqn:E.
  - rewrite obj_get_replace_value, E. done.
  - destruct (array_index k) as [n|].
    + by apply obj_get_insert_index.
    + rewrite obj_get_app. simpl.
      destruct (decide (k = k')) as [-> | Hne].
      * by rewrite E.
      * by destruct (obj_get k' o).
Qed.

Lemma obj_get_delete (k k' : jsstring) (o : obj) :
  obj_get k' (obj_delete k o)
  = if decide (k = k') then None else obj_get k' o.
Proof.
  unfold obj_delete. induction o as [|[k0 v0] o IH]; simpl.
  - by case_decide.
  - rewrite filter_cons. simpl. destruct (decide (k0 <> k)) as [Hne | Heq].
    + simpl. rewrite IH. destruct (decide (k0 = k')) as [-> | ?]; [|done].
      by rewrite decide_False by congruence.
    + assert (k0 = k) as -> by (by destruct (decide (k0 = k))).
      rewrite IH. destruct (decide (k = k')); done.
Qed.

Lemma replace_value_same (k v : jsstring) (o : obj) :
  obj_get k o = Some v -> replace_value k v o = o.
Proof.
  induction o as [|[k0 v0] o IH]; simpl; [done|].
  destruct (decide (k0 = k)) as [-> | Hne]; intros H.
  - by injection H as ->.
  - by rewrite IH.
Qed.

(** Writing the value a key already has changes nothing. *)
Lemma obj_set_same (k v : jsstring) (o : obj) :
  obj_get k o = Some v -> obj_set k v o = o.
Proof. intros H. unfold obj_set. rewrite H. by apply replace_value_same. Qed.

Lemma keys_replace_value (k v : jsstring) (o : obj) :
  keys (replace_value k v o) = keys o.
Proof.
  unfold keys. induction o as [|[k0 v0] o IH]; simpl; [done|].
  case_decide; simpl; by rewrite ?IH.
Qed.

Lemma keys_insert_index (n : N) (k v x : jsstring) (o : obj) :
  x ∈ keys (insert_index n k v o) -> x = k \/ x ∈ keys o.
Proof.
  unfold keys. induction o as [|[k0 v0] o IH]; simpl.
  - intros H. apply list_elem_of_singleton in H. by left.
  - destruct (array_index k0) as [n'|]; [destruct (n' <? n)|]; simpl;
      rewrite ?elem_of_cons; simpl; tauto.
Qed.

Lemma keys_obj_set (k v x : jsstring) (o : obj) :
  x ∈ keys (obj_set k v o) -> x = k \/ x ∈ keys o.
Proof.
  unfold obj_set. destruct (obj_get k o).
  - rewrite keys_replace_value. by right.
  - destruct (array_index k).
    + apply keys_insert_index.
    + unfold keys. rewrite map_app, elem_of_app. simpl.
      rewrite list_elem_of_singleton. tauto.
Qed.

Lemma keys_obj_delete (k x : jsstring) (o : obj) :
  x ∈ keys (obj_delete k o) -> x ∈ keys o /\ x <> k.
Proof.
  unfold keys, obj_delete. rewrite !list_elem_of_fmap.
  intros ([k0 v0] & -> & H). apply list_elem_of_filter in H as [Hne H].
  split; [|done]. by exists (k0, v0).
Qed.

Lemma field_truthy_get (k : jsstring) (o : obj) :
  field_truthy k o = true ->
  obj_get k o = Some (field_or_empty k o) /\ truthy (field_or_empty k o) = true.
Proof.
  unfold field_truthy, field_or_empty. destruct (obj_get k o); [done|].
  discriminate.
Qed.

Lemma field_truthy_set (k v k' : jsstring) (o : obj) :
  field_truthy k' (obj_set k v o)
  = if decide (k = k') then truthy v else field_truthy k' o.
Proof. unfold field_truthy. rewrite obj_get_set. by case_decide. Qed.

Lemma field_or_empty_set (k v k' : jsstring) (o : obj) :
  field_or_empty k' (obj_set k v o)
  = if decide (k = k') then v else field_or_empty k' o.
Proof. unfold field_or_empty. rewrite obj_get_set. by case_decide. Qed.

End ObjectFacts.

(** Closed decidable facts are settled by evaluation. *)
Ltac by_evaluation :=
  match goal with |- ?P => apply (bool_decide_unpack P) end; vm_compute; exact I.

(** ** Tables written as object literals *)
Section TableFacts.

Lemma own_elem_of (table : list (string * string)) (k v : jsstring) :
  own table k = Some v -> exists kv, kv ∈ table /\ js kv.1 = k /\ js kv.2 = v.
Proof.
  induction table as [|[k0 v0] table IH]; simpl; [done|].
  case_decide.
  - intros [= <-]. exists (k0, v0). split; [left | done].
  - intros H'. destruct (IH H') as (kv & Hin & E). exists kv. split; [by right | done].
Qed.

Lemma prop_truthy_cases (table : list (string * string)) (k : jsstring) (t : jsval) :
  prop_truthy table k = Some t ->
  (exists kv, kv ∈ table /\ js kv.1 = k /\ t = VString (js kv.2))
  \/ (k ∈ map js Object_prototype_names /\ t = VInherited k).
Proof.
  unfold prop_truthy, prop. destruct (own table k) as [v|] eqn:E.
  - simpl. destruct (truthy v); [|done]. intros [= <-].
    destruct (own_elem_of _ _ _ E) as (kv & Hin & Hk & Hv).
    left. exists kv. by rewrite Hv.
  - case_decide; [|done]. simpl. intros [= <-]. by right.
Qed.

End TableFacts.

(** ** The parser *)
Section ParserFacts.
Import ExcelParser.

(** C1: for the headers matricule, nom, prenom, datedenaissance, status
    and the one data row FRSE2X8S, Girard, David, 1984-09-21, Inactif,
    the parser yields exactly one record, with external_id, last_name,
    first_name, birth_date, status and the derived name "Girard David"
    (and logs no warning). *)
Theorem parseExcel_sample_row :
  parseExcel
    [ Sample.cells ["matricule"; "nom"; "prenom"; "datedenaissance"; "status"];
      Sample.cells ["FRSE2X8S"; "Girard"; "David"; "1984-09-21"; "Inactif"] ]
  = ([], Ok [ Sample.record
                [ ("external_id", "FRSE2X8S"); ("last_name", "Girard");
                  ("first_name", "David"); ("birth_date", "1984-09-21");
                  ("status", "Inactif"); ("name", "Girard David") ] ]).
Proof. vm_compute. reflexivity. Qed.


Lemma HEADER_MAPPINGS_keys_distinct : NoDup (map (fun kv => js kv.1) HEADER_MAPPINGS).
Proof. by_evaluation. Qed.




(** A header that is a name inherited from Object.prototype is
    answered by the inherited member, not by a string: the reason for
    the side condition of the lookup order below. *)
Lemma mapHeader_inherited_name :
  mapHeader (js "constructor") = VInherited (js "constructor")
  /\ property_key (mapHeader (js "constructor"))
     = js "function Object() { [native code] }".
Proof. split; by vm_compute. Qed.



Lemma cellText_defined (c : cell) :
  c <> CNull -> exists v, cellText c = Ok v.
Proof. destruct c; simpl; eauto; done. Qed.

Lemma fillPerson_defined (hs : list jsval) (r : row) (person : obj) :
  Forall (fun c => c <> CNull) r -> exists p, fillPerson hs r person = Ok p.
Proof.
  revert r person. induction hs as [|h hs IH]; intros r person Hr; simpl.
  - eauto.
  - destruct r as [|c r]; [eauto|].
    apply Forall_cons in Hr as [Hc Hr].
    destruct (val_truthy h); [|by apply IH].
    destruct (cellText_defined c Hc) as [v ->]. simpl. by apply IH.
Qed.

Lemma frenchName_defined (hs : list jsval) (r : row) (person : obj) :
  Forall (fun c => c <> CNull) r -> exists p, frenchName hs r person = Ok p.
Proof.
  intros Hr. unfold frenchName.
  destruct (_ && _); [|eauto].
  destruct (indexOf "last_name" hs) as [li|]; [|eauto].
  destruct (indexOf "first_name" hs) as [fi|]; [|eauto].
  destruct (r !! li) as [lc|] eqn:El; [|eauto].
  destruct (r !! fi) as [fc|] eqn:Ef; [|eauto].
  rewrite Forall_lookup in Hr.
  destruct (cellText_defined lc (Hr _ _ El)) as [lv ->].
  destruct (cellText_defined fc (Hr _ _ Ef)) as [fv ->]. simpl. eauto.
Qed.

Lemma shapeRow_defined (hs : list jsval) (r : row) :
  Forall (fun c => c <> CNull) r -> exists p, shapeRow hs r = Ok p.
Proof.
  intros Hr. unfold shapeRow.
  destruct (fillPerson_defined hs r [] Hr) as [p ->]. simpl.
  by apply frenchName_defined.
Qed.

Lemma map_result_defined {E A B} (f : A -> result E B) (xs : list A) :
  Forall (fun x => exists y, f x = Ok y) xs -> exists ys, map_result f xs = Ok ys.
Proof.
  induction 1 as [|x xs [y Hy] _ [ys IH]]; simpl; [eauto|].
  rewrite Hy, IH. simpl. eauto.
Qed.

(** On a grid whose data rows hold no null cell, the parse fails
    exactly when there are fewer than two rows or the mapped headers
    identify nobody; the warning about missing standard headers never
    makes it fail. *)
Lemma parseExcel_fails_without_null (rawData : list row) :
  Forall (Forall (fun c => c <> CNull)) (tl rawData) ->
  (exists e, (parseExcel rawData).2 = Err e)
  <-> (length rawData < 2)%nat
      \/ identifiable (mapHeaders (hd [] rawData)) = false.
Proof.
  intros Hrows. unfold parseExcel, parseRows.
  destruct rawData as [|headerRow [|r rows]]; simpl.
  - split; [left; lia | eauto].
  - split; [left; lia | eauto].
  - simpl in Hrows.
    destruct (identifiable (mapHeaders headerRow)) eqn:Hid.
    + destruct (map_result_defined (shapeRow (mapHeaders headerRow))
                  (filter (fun r0 => keepRow r0 = true) (r :: rows))) as [ys Hys].
      { apply Forall_forall. intros x Hx. apply list_elem_of_filter in Hx as [_ Hx].
        rewrite Forall_forall in Hrows. by apply shapeRow_defined, Hrows. }
      rewrite Hys. simpl. split; [intros [e He]; done | intros [H|H]; [lia|done]].
    + simpl. split; [by right | eauto].
Qed.

(** C7 fails on the code: a sheet with a header row that identifies
    people and a data row makes the parse fail when a cell under a
    mapped header is null, although the filter of blank rows provides
    for null cells. *)
Theorem parseExcel_null_cell :
  let rawData := [ Sample.cells ["id"; "nom"]; [CString (js "A1"); CNull] ] in
  (2 <= length rawData)%nat
  /\ identifiable (mapHeaders (hd [] rawData)) = true
  /\ (parseExcel rawData).2 = Err (FailedToParse TypeErrorOnNull).
Proof. repeat split; by vm_compute. Qed.

End ParserFacts.

(** ** Field normalisation before persistence *)
Section NormalizeFacts.

Ltac keys_ne := let H := fresh in intros H; vm_compute in H; congruence.

Lemma obj_get_set_same (k v : jsstring) (o : obj) :
  obj_get k (obj_set k v o) = Some v.
Proof. rewrite obj_get_set. by rewrite decide_True. Qed.

Lemma obj_get_set_other (k v k' : jsstring) (o : obj) :
  k <> k' -> obj_get k' (obj_set k v o) = obj_get k' o.
Proof. intros. rewrite obj_get_set. by rewrite decide_False. Qed.

Lemma field_truthy_set_same (k v : jsstring) (o : obj) :
  field_truthy k (obj_set k v o) = truthy v.
Proof. rewrite field_truthy_set. by rewrite decide_True. Qed.

Lemma field_truthy_set_other (k v k' : jsstring) (o : obj) :
  k <> k' -> field_truthy k' (obj_set k v o) = field_truthy k' o.
Proof. intros. rewrite field_truthy_set. by rewrite decide_False. Qed.

Lemma field_or_empty_set_same (k v : jsstring) (o : obj) :
  field_or_empty k (obj_set k v o) = v.
Proof. rewrite field_or_empty_set. by rewrite decide_True. Qed.

Lemma field_or_empty_set_other (k v k' : jsstring) (o : obj) :
  k <> k' -> field_or_empty k' (obj_set k v o) = field_or_empty k' o.
Proof. intros. rewrite field_or_empty_set. by rewrite decide_False. Qed.

Ltac fields :=
  repeat first
    [ rewrite obj_get_set_same
    | rewrite field_truthy_set_same
    | rewrite field_or_empty_set_same
    | rewrite obj_get_set_other by keys_ne
    | rewrite field_truthy_set_other by keys_ne
    | rewrite field_or_empty_set_other by keys_ne ].

Lemma joinName_named (o : obj) :
  field_truthy (js "name") o = true -> joinName o = o.
Proof. intros H. unfold joinName. by rewrite H. Qed.

(** What [splitName] does, case by case. *)
Lemma splitName_cases (o : obj) :
  let parts := split_ws (trim (field_or_empty (js "name") o)) in
  (splitName o = o
   /\ (field_truthy (js "name") o = false
       \/ (field_truthy (js "first_name") o = true
           /\ field_truthy (js "last_name") o = true)
       \/ (length parts < 2)%nat))
  \/ (field_truthy (js "name") o = true
      /\ (2 <= length parts)%nat
      /\ (field_truthy (js "first_name") o = false
          \/ field_truthy (js "last_name") o = false)
      /\ splitName o
         = (let o1 := if field_truthy (js "last_name") o then o
                      else obj_set (js "last_name") (hd [] parts) o in
            if field_truthy (js "first_name") o then o1
            else obj_set (js "first_name") (join_sp (tl parts)) o1)).
Proof.
  intros parts. unfold splitName. fold parts.
  destruct (field_truthy (js "name") o) eqn:Hn; cbn [negb andb orb]; [|left; auto].
  destruct (field_truthy (js "first_name") o) eqn:Hf,
           (field_truthy (js "last_name") o) eqn:Hl; cbn [negb andb orb];
    try (left; split; [done | tauto]).
  all: destruct (2 <=? length parts)%nat eqn:Hp;
    [apply Nat.leb_le in Hp | apply Nat.leb_gt in Hp; left; split; [done | tauto]].
  all: right; repeat split; try tauto; fields; rewrite ?Hf; done.
Qed.

Lemma splitName_fields (o : obj) :
  field_truthy (js "name") o = true ->
  (2 <= length (split_ws (trim (field_or_empty (js "name") o))))%nat ->
  field_truthy (js "first_name") (splitName o) = true
  /\ field_truthy (js "last_name") (splitName o) = true
  /\ obj_get (js "name") (splitName o) = obj_get (js "name") o.
Proof.
  intros Hn Hp.
  destruct (split_trim_pieces _ Hp) as [Hhd Htl].
  destruct (splitName_cases o) as [[E C] | (_ & _ & _ & E)].
  - rewrite E. destruct C as [C | [[? ?] | C]]; [congruence | done | lia].
  - rewrite E. clear E.
    destruct (field_truthy (js "first_name") o) eqn:Hf,
             (field_truthy (js "last_name") o) eqn:Hl; simpl; fields; done.
Qed.

Lemma splitName_name (o : obj) :
  obj_get (js "name") (splitName o) = obj_get (js "name") o.
Proof.
  destruct (splitName_cases o) as [[E _] | (Hn & Hp & _ & _)].
  - by rewrite E.
  - by apply splitName_fields.
Qed.

Lemma splitName_idempotent (o : obj) : splitName (splitName o) = splitName o.
Proof.
  destruct (splitName_cases o) as [[E _] | (Hn & Hp & _ & _)].
  - by rewrite !E.
  - destruct (splitName_fields o Hn Hp) as (Hf & Hl & _).
    destruct (splitName_cases (splitName o)) as [[E _] | (_ & _ & [C | C] & _)];
      [done | congruence | congruence].
Qed.

Lemma joinName_splitName_idempotent (o : obj) :
  joinName (splitName (joinName (splitName o))) = joinName (splitName o).
Proof.
  destruct (field_truthy (js "name") (splitName o)) eqn:Hn.
  - rewrite (joinName_named _ Hn), splitName_idempotent. by apply joinName_named.
  - assert (Hn' : field_truthy (js "name") o = false).
    { unfold field_truthy in *. by rewrite splitName_name in Hn. }
    assert (E : splitName o = o).
    { destruct (splitName_cases o) as [[E _] | (C & _)]; [done | congruence]. }
    rewrite E. unfold joinName at 2. rewrite Hn'. simpl.
    destruct (field_truthy (js "first_name") o) eqn:Hf,
             (field_truthy (js "last_name") o) eqn:Hl; simpl;
      try (rewrite E; unfold joinName; rewrite Hn', Hf, Hl; done).
    set (v := trim (spaced (field_or_empty (js "last_name") o)
                           (field_or_empty (js "first_name") o))).
    assert (E' : splitName (obj_set (js "name") v o) = obj_set (js "name") v o).
    { destruct (splitName_cases (obj_set (js "name") v o))
        as [[E' _] | (_ & _ & [C | C] & _)]; [done | |];
        revert C; fields; congruence. }
    rewrite E'. unfold joinName. fields. rewrite Hf, Hl, Hn'. fold v.
    destruct (truthy v); cbn [negb andb]; [done|].
    apply obj_set_same. by fields.
Qed.

Lemma fieldMappings_targets :
  Forall (fun kv => js kv.1 <> js kv.2
                    /\ prop_truthy fieldMappings (js kv.2) = None) fieldMappings.
Proof. by_evaluation. Qed.

Lemma inherited_targets :
  Forall (fun n => prop_truthy fieldMappings (property_key (VInherited (js n))) = None)
    Object_prototype_names.
Proof. by_evaluation. Qed.

Lemma canonical_unmapped :
  Forall (fun n => prop_truthy fieldMappings (js n) = None) Spec.canonical_fields.
Proof. by_evaluation. Qed.

(** A key with a mapping is renamed to a key that has none. *)
Lemma mapping_target (k : jsstring) (t : jsval) :
  prop_truthy fieldMappings k = Some t ->
  VString k <> t /\ prop_truthy fieldMappings (property_key t) = None.
Proof.
  intros H. destruct (prop_truthy_cases _ _ _ H) as [(kv & Hin & <- & ->) | [Hin ->]].
  - pose proof fieldMappings_targets as HF. rewrite Forall_forall in HF.
    destruct (HF _ Hin) as [Hne Hnone]. split; [congruence | done].
  - split; [done|]. apply list_elem_of_fmap in Hin as (n & -> & Hn).
    pose proof inherited_targets as HF. rewrite Forall_forall in HF. by apply HF.
Qed.

Lemma fold_mapEntry_unmapped (entries normalized : obj) :
  (forall k, k ∈ keys normalized -> prop_truthy fieldMappings k <> None ->
             k ∈ keys entries) ->
  forall k, k ∈ keys (fold_left mapEntry entries normalized) ->
            prop_truthy fieldMappings k = None.
Proof.
  revert normalized. induction entries as [|[key value] entries IH];
    intros normalized Hinv k Hk; simpl in Hk.
  - destruct (prop_truthy fieldMappings k) eqn:E; [|done].
    exfalso. eapply not_elem_of_nil, (Hinv k Hk). congruence.
  - apply (IH (mapEntry normalized (key, value))); [|done].
    clear k Hk. intros k Hk Hmapped. unfold mapEntry in Hk. simpl in Hk.
    destruct (prop_truthy fieldMappings key) as [t|] eqn:E.
    + destruct (mapping_target _ _ E) as [Hne Ht].
      rewrite decide_False in Hk by done.
      apply keys_obj_delete in Hk as [Hk Hkey].
      apply keys_obj_set in Hk as [-> | Hk]; [done|].
      specialize (Hinv k Hk Hmapped). unfold keys in Hinv. simpl in Hinv.
      apply elem_of_cons in Hinv as [? | ?]; done.
    + specialize (Hinv k Hk Hmapped). unfold keys in Hinv. simpl in Hinv.
      apply elem_of_cons in Hinv as [-> | ?]; done.
Qed.

Lemma applyMappings_unmapped (person : obj) (k : jsstring) :
  k ∈ keys (applyMappings person) -> prop_truthy fieldMappings k = None.
Proof. apply fold_mapEntry_unmapped. auto. Qed.

Lemma fold_mapEntry_fixed (entries normalized : obj) :
  (forall k, k ∈ keys entries -> prop_truthy fieldMappings k = None) ->
  fold_left mapEntry entries normalized = normalized.
Proof.
  induction entries as [|[key value] entries IH]; intros H; simpl; [done|].
  unfold mapEntry at 2. simpl. rewrite (H key) by (by left).
  apply IH. intros k Hk. apply H. by right.
Qed.

(** A record none of whose keys has a mapping is not renamed. *)
Lemma applyMappings_fixed (person : obj) :
  (forall k, k ∈ keys person -> prop_truthy fieldMappings k = None) ->
  applyMappings person = person.
Proof. apply fold_mapEntry_fixed. Qed.

(** Filling a field that is absent or empty keeps every other field,
    every non-empty value, and adds at most that key. *)
Lemma fill_preserves (key : jsstring) (o o' : obj) :
  o' = o \/ (field_truthy key o = false /\ exists x, o' = obj_set key x o) ->
  (forall k v, obj_get k o = Some v -> truthy v = true -> obj_get k o' = Some v)
  /\ (forall k, k <> key -> obj_get k o' = obj_get k o)
  /\ (forall k, k ∈ keys o' -> k = key \/ k ∈ keys o).
Proof.
  intros [-> | (Hfalsy & x & ->)]; [auto|].
  repeat split.
  - intros k v Hget Hv. rewrite obj_get_set. case_decide as E; [|done].
    subst. unfold field_truthy in Hfalsy. rewrite Hget in Hfalsy. congruence.
  - intros k Hne. by rewrite obj_get_set_other.
  - intros k. apply keys_obj_set.
Qed.

Lemma splitName_fills (o : obj) :
  exists o1,
    (o1 = o \/ (field_truthy (js "last_name") o = false
                /\ exists x, o1 = obj_set (js "last_name") x o))
    /\ (splitName o = o1
        \/ (field_truthy (js "first_name") o1 = false
            /\ exists x, splitName o = obj_set (js "first_name") x o1)).
Proof.
  destruct (splitName_cases o) as [[E _] | (_ & _ & _ & E)].
  - exists o. auto.
  - rewrite E. clear E.
    destruct (field_truthy (js "last_name") o) eqn:Hl;
      destruct (field_truthy (js "first_name") o) eqn:Hf; cbn zeta;
      eexists; split; eauto; right; fields; eauto.
Qed.

Lemma joinName_fills (o : obj) :
  joinName o = o
  \/ (field_truthy (js "name") o = false /\ exists x, joinName o = obj_set (js "name") x o).
Proof.
  unfold joinName. destruct (field_truthy (js "name") o); cbn [negb andb]; [auto|].
  destruct (_ && _); eauto.
Qed.

(** The derivation steps keep what the record already has. *)
Lemma derive_preserves (o : obj) :
  (forall k v, obj_get k o = Some v -> truthy v = true ->
               obj_get k (joinName (splitName o)) = Some v)
  /\ (forall k, k ∉ map js ["name"; "first_name"; "last_name"]%string ->
                obj_get k (joinName (splitName o)) = obj_get k o)
  /\ (forall k, k ∈ keys (joinName (splitName o)) ->
                k ∈ map js ["name"; "first_name"; "last_name"]%string \/ k ∈ keys o).
Proof.
  destruct (splitName_fills o) as (o1 & H1 & H2).
  destruct (fill_preserves _ _ _ H1) as (A1 & B1 & C1).
  destruct (fill_preserves _ _ _ H2) as (A2 & B2 & C2).
  destruct (fill_preserves _ _ _ (joinName_fills (splitName o))) as (A3 & B3 & C3).
  repeat split.
  - eauto.
  - intros k Hk. rewrite B3, B2, B1; [done|..]; intros ->; apply Hk;
      by_evaluation.
  - intros k Hk. destruct (C3 _ Hk) as [-> | Hk3]; [left; by_evaluation|].
    destruct (C2 _ Hk3) as [-> | Hk2]; [left; by_evaluation|].
    destruct (C1 _ Hk2) as [-> | Hk1]; [left; by_evaluation | by right].
Qed.

Lemma normalizePersonFields_unmapped (person : obj) (k : jsstring) :
  k ∈ keys (normalizePersonFields person) -> prop_truthy fieldMappings k = None.
Proof.
  intros Hk. destruct (derive_preserves (applyMappings person)) as (_ & _ & C).
  destruct (C k Hk) as [Hc | Hm]; [|by eapply applyMappings_unmapped].
  assert (HF : Forall (fun n => prop_truthy fieldMappings (js n) = None)
                 ["name"; "first_name"; "last_name"]%string) by by_evaluation.
  rewrite Forall_forall in HF.
  apply list_elem_of_fmap in Hc as (n & -> & Hn). by apply HF.
Qed.

(** The values [splitName] gives to the name parts of a record whose
    name has at least two pieces. *)
Lemma splitName_values (o : obj) :
  let parts := split_ws (trim (field_or_empty (js "name") o)) in
  field_truthy (js "name") o = true ->
  (2 <= length parts)%nat ->
  (field_truthy (js "last_name") o = false ->
   obj_get (js "last_name") (splitName o) = Some (hd [] parts))
  /\ (field_truthy (js "first_name") o = false ->
      obj_get (js "first_name") (splitName o) = Some (join_sp (tl parts)))
  /\ (field_truthy (js "last_name") o = true ->
      obj_get (js "last_name") (splitName o) = obj_get (js "last_name") o)
  /\ (field_truthy (js "first_name") o = true ->
      obj_get (js "first_name") (splitName o) = obj_get (js "first_name") o).
Proof.
  intros parts Hn Hp.
  destruct (splitName_cases o) as [[E C] | (_ & _ & _ & E)].
  - rewrite E. fold parts in C.
    destruct C as [C | [[Cf Cl] | C]]; [congruence | | lia].
    repeat split; intros; congruence.
  - rewrite E. clear E. fold parts.
    destruct (field_truthy (js "last_name") o) eqn:Hl,
             (field_truthy (js "first_name") o) eqn:Hf; cbn zeta;
      repeat split; intros; try congruence; by fields.
Qed.

(** C3 as stated fails: a record whose name is the single word Cher and
    that has no last name comes out without one, and without a first
    name, although Cher is its first white-space-delimited piece. *)
Lemma normalizePersonFields_single_word :
  let person := Sample.record [("name", "Cher")] in
  field_truthy (js "name") person = true
  /\ obj_get (js "last_name") person = None
  /\ hd [] (split_ws (trim (js "Cher"))) = js "Cher"
  /\ obj_get (js "last_name") (normalizePersonFields person) <> Some (js "Cher")
  /\ normalizePersonFields person = person.
Proof. repeat split; by vm_compute. Qed.

(** C3, amended: let the record be taken after its keys have been
    mapped.  If it has first_name and last_name and no name, the output
    name is "last_name first_name", trimmed.  If it has a name of at
    least two white-space-delimited pieces, a missing last_name becomes
    the first piece and a missing first_name the remaining pieces joined
    by single spaces, while a first or last name already there and the
    name itself are kept.  If its name has fewer than two pieces, nothing
    is derived. *)
Theorem normalizePersonFields_derives_names (person : obj) :
  let normalized := applyMappings person in
  let out := normalizePersonFields person in
  let nameParts := split_ws (trim (field_or_empty (js "name") normalized)) in
  (field_truthy (js "name") normalized = false ->
   field_truthy (js "first_name") normalized = true ->
   field_truthy (js "last_name") normalized = true ->
   obj_get (js "name") out
   = Some (trim (spaced (field_or_empty (js "last_name") normalized)
                        (field_or_empty (js "first_name") normalized))))
  /\ (field_truthy (js "name") normalized = true ->
      (2 <= length nameParts)%nat ->
      (field_truthy (js "last_name") normalized = false ->
       obj_get (js "last_name") out = Some (hd [] nameParts))
      /\ (field_truthy (js "first_name") normalized = false ->
          obj_get (js "first_name") out = Some (join_sp (tl nameParts)))
      /\ (field_truthy (js "last_name") normalized = true ->
          obj_get (js "last_name") out = obj_get (js "last_name") normalized)
      /\ (field_truthy (js "first_name") normalized = true ->
          obj_get (js "first_name") out = obj_get (js "first_name") normalized)
      /\ obj_get (js "name") out = obj_get (js "name") normalized)
  /\ (field_truthy (js "name") normalized = true ->
      (length nameParts < 2)%nat ->
      out = normalized).
Proof.
  intros normalized out nameParts. subst out. unfold normalizePersonFields.
  fold normalized. split; [|split].
  - intros Hn Hf Hl.
    destruct (splitName_cases normalized) as [[E _] | (C & _)]; [|congruence].
    rewrite E. unfold joinName. rewrite Hn, Hf, Hl. cbn [negb andb]. by fields.
  - intros Hn Hp.
    rewrite joinName_named
      by (unfold field_truthy in *; by rewrite splitName_name).
    destruct (splitName_values normalized Hn Hp) as (V1 & V2 & V3 & V4).
    repeat split; try assumption. apply splitName_name.
  - intros Hn Hp.
    destruct (splitName_cases normalized) as [[E _] | (_ & C & _)];
      [|fold nameParts in C; lia].
    rewrite E. by apply joinName_named.
Qed.

Lemma normalizePersonFields_derives_names_witness :
  let person := Sample.record [("Name", "Doe John Paul"); ("Status", "Active")] in
  obj_get (js "last_name") (normalizePersonFields person) = Some (js "Doe")
  /\ obj_get (js "first_name") (normalizePersonFields person) = Some (js "John Paul")
  /\ obj_get (js "name") (normalizePersonFields person) = Some (js "Doe John Paul").
Proof.
  intros person.
  destruct (normalizePersonFields_derives_names person) as (_ & H & _).
  destruct H as (Hl & Hf & _ & _ & Hn); [by vm_compute | vm_compute; lia |].
  split; [exact (Hl eq_refl)|]. split; [exact (Hf eq_refl)|]. exact Hn.
Defined.

(** C6 as stated fails: a record with the canonical keys first_name and
    last_name only is not left unchanged, it gains the derived name. *)
Lemma normalizePersonFields_adds_name :
  let person := Sample.record [("first_name", "David"); ("last_name", "Girard")] in
  Forall Spec.canonical (keys person)
  /\ normalizePersonFields person = person ++ [(js "name", js "Girard David")]
  /\ normalizePersonFields person <> person.
Proof.
  split; [by_evaluation|]. split; [by vm_compute|].
  intros H. vm_compute in H. congruence.
Qed.

(** C6, amended: the normaliser is idempotent; and on a record whose
    keys are all canonical no key is renamed or removed, every
    non-empty value stays, the fields other than name, first_name and
    last_name are as before, and the only keys that can be new are
    those three, filled in by the name derivation. *)
Theorem normalizePersonFields_idempotent :
  (forall person : obj,
      normalizePersonFields (normalizePersonFields person)
      = normalizePersonFields person)
  /\ (forall person : obj,
         (forall k, k ∈ keys person -> Spec.canonical k) ->
         applyMappings person = person
         /\ (forall k v, obj_get k person = Some v -> truthy v = true ->
                         obj_get k (normalizePersonFields person) = Some v)
         /\ (forall k, k ∉ map js ["name"; "first_name"; "last_name"]%string ->
                       obj_get k (normalizePersonFields person) = obj_get k person)
         /\ (forall k, k ∈ keys (normalizePersonFields person) ->
                       k ∈ map js ["name"; "first_name"; "last_name"]%string
                       \/ k ∈ keys person)).
Proof.
  split.
  - intros person. unfold normalizePersonFields at 1.
    rewrite (applyMappings_fixed (normalizePersonFields person))
      by apply normalizePersonFields_unmapped.
    apply joinName_splitName_idempotent.
  - intros person Hcanon.
    assert (E : applyMappings person = person).
    { apply applyMappings_fixed. intros k Hk.
      pose proof canonical_unmapped as HF. rewrite Forall_forall in HF.
      specialize (Hcanon k Hk). apply list_elem_of_fmap in Hcanon as (n & -> & Hn).
      by apply HF. }
    split; [done|]. unfold normalizePersonFields. rewrite E.
    apply derive_preserves.
Qed.

Lemma normalizePersonFields_idempotent_witness :
  let person := Sample.record [("external_id", "A1"); ("name", "Doe John")] in
  (forall k, k ∈ keys person -> Spec.canonical k)
  /\ applyMappings person = person
  /\ obj_get (js "external_id") (normalizePersonFields person) = Some (js "A1")
  /\ normalizePersonFields (normalizePersonFields person) = normalizePersonFields person.
Proof.
  intros person.
  assert (Hcanon : forall k, k ∈ keys person -> Spec.canonical k).
  { apply Forall_forall. by_evaluation. }
  destruct (proj2 normalizePersonFields_idempotent person Hcanon) as (E & V & _).
  split; [exact Hcanon|]. split; [exact E|].
  split; [apply V; by vm_compute|].
  exact (proj1 normalizePersonFields_idempotent person).
Defined.

End NormalizeFacts.

(** ** The adapters *)
Section AdapterFacts.
Context `{Engine}.

Lemma insertPerson_eligible (h : nat) (counts : nat * nat) (p : obj) (s : io) :
  eligible p = true ->
  insertPerson h counts p s
  = ((if (exec h (Insert (insertValues p)) (now s)).1
      then (S counts.1, counts.2) else (counts.1, S counts.2)),
     {| now := (exec h (Insert (insertValues p)) (now s)).2;
        trace := trace s ++ [Ran h (Insert (insertValues p))
                               (exec h (Insert (insertValues p)) (now s)).1] |}).
Proof.
  intros Hp. unfold insertPerson, seq, run, ret. rewrite Hp.
  by destruct (exec h (Insert (insertValues p)) (now s)).
Qed.

Lemma insertPerson_skipped (h : nat) (counts : nat * nat) (p : obj) (s : io) :
  eligible p = false -> insertPerson h counts p s = (counts, s).
Proof. intros Hp. unfold insertPerson. by rewrite Hp. Qed.

Lemma insertEach_app (h : nat) (counts : nat * nat) (l1 l2 : list obj) (s : io) :
  insertEach h counts (l1 ++ l2) s
  = insertEach h (insertEach h counts l1 s).1 l2 (insertEach h counts l1 s).2.
Proof.
  revert counts s. induction l1 as [|p l1 IH]; intros counts s; simpl; [done|].
  unfold seq. destruct (insertPerson h counts p s) as [counts' s']. apply IH.
Qed.

Lemma insertBatches_concat (h : nat) (counts : nat * nat) (bs : list (list obj)) (s : io) :
  insertBatches h counts bs s = insertEach h counts (concat bs) s.
Proof.
  revert counts s. induction bs as [|b bs IH]; intros counts s; simpl; [done|].
  rewrite insertEach_app. unfold seq.
  destruct (insertEach h counts b s) as [counts' s']. apply IH.
Qed.

Lemma concat_slices {A} (rounds size : nat) (l : list A) :
  (0 < size)%nat -> (length l <= rounds)%nat -> concat (slices rounds size l) = l.
Proof.
  intros Hsize. revert l. induction rounds as [|rounds IH]; intros l Hlen.
  - destruct l; [done | simpl in Hlen; lia].
  - destruct l as [|x l]; [done|].
    cbn [slices concat]. rewrite IH; [apply take_drop|].
    rewrite length_drop. simpl in *. lia.
Qed.

(** Processing the sub-batches one after the other is processing the
    records one after the other. *)
Lemma insertBatches_batches (h : nat) (counts : nat * nat) (people : list obj) (s : io) :
  insertBatches h counts (batches 100 people) s = insertEach h counts people s.
Proof.
  rewrite insertBatches_concat. unfold batches.
  rewrite concat_slices; [done | lia | done].
Qed.

Lemma insertEach_skip (h : nat) (counts : nat * nat) (pre post : list obj)
  (r : obj) (s : io) :
  eligible r = false ->
  insertEach h counts (pre ++ r :: post) s = insertEach h counts (pre ++ post) s.
Proof.
  intros Hr. rewrite !insertEach_app. cbn [insertEach]. unfold seq.
  by rewrite insertPerson_skipped.
Qed.

(** The records of a batch are attempted one by one, eligible ones
    only, whatever the outcome of the earlier ones: each outcome is
    counted as inserted or as an error, and the trace grows by exactly
    these attempts. *)
Lemma insertEach_outcomes (h : nat) (counts : nat * nat) (people : list obj) (s : io) :
  exists outcomes : list bool,
    let attempted := filter (fun p => eligible p = true) people in
    length outcomes = length attempted
    /\ (insertEach h counts people s).1
       = (counts.1 + length (filter (fun ok => ok = true) outcomes),
          counts.2 + length (filter (fun ok => ok = false) outcomes))%nat
    /\ trace (insertEach h counts people s).2
       = trace s ++ zip_with (fun p ok => Ran h (Insert (insertValues p)) ok)
                     attempted outcomes.
Proof.
  revert counts s. induction people as [|p people IH]; intros counts s.
  - exists []. simpl. rewrite app_nil_r, !Nat.add_0_r. by destruct counts.
  - cbn [insertEach]. unfold seq. rewrite filter_cons.
    destruct (eligible p) eqn:Hp.
    + rewrite decide_True by done. rewrite insertPerson_eligible by done.
      destruct (exec h (Insert (insertValues p)) (now s)) as [ok w'].
      cbn [fst snd].
      match goal with |- context [insertEach h ?c people ?s'] =>
        destruct (IH c s') as (outcomes & Hlen & Hcounts & Htrace) end.
      exists (ok :: outcomes). cbn zeta in *. simpl in Htrace.
      split; [simpl; by rewrite Hlen|].
      split.
      * rewrite Hcounts. rewrite !filter_cons.
        destruct ok; simpl; f_equal; lia.
      * rewrite Htrace. by rewrite <- app_assoc.
    + rewrite decide_False by congruence. rewrite insertPerson_skipped by done.
      apply IH.
Qed.

Lemma outcomes_split (outcomes : list bool) :
  (length (filter (fun ok => ok = true) outcomes)
   + length (filter (fun ok => ok = false) outcomes))%nat = length outcomes.
Proof.
  induction outcomes as [|[|] outcomes IH]; [done|..];
    rewrite !filter_cons; simpl; lia.
Qed.

Lemma eligible_false (person : obj) :
  eligible person = false
  <-> field_truthy (js "birth_date") person = false
      /\ field_truthy (js "external_id") person = false
      /\ (field_truthy (js "first_name") person = false
          \/ field_truthy (js "last_name") person = false).
Proof.
  unfold eligible.
  destruct (field_truthy (js "birth_date") person),
           (field_truthy (js "external_id") person),
           (field_truthy (js "first_name") person),
           (field_truthy (js "last_name") person); simpl; intuition congruence.
Qed.

Lemma sqlite_save_unfold (h : nat) (people : list obj) (s : io) :
  people <> [] ->
  adapter_save Sqlite h people s
  = (do! _ <- run h Begin;
     do! counts <- insertEach h (0, 0)%nat people;
     do! committed <- run h Commit;
     if committed
     then ret (Ok {| inserted := counts.1; errors := Some counts.2 |})
     else do! _ <- run h Rollback; ret (Err FailedToCommit)) s.
Proof. by destruct people. Qed.

Lemma saveBatched_unfold (a : dbkind) (h : nat) (people : list obj) (s : io) :
  people <> [] ->
  saveBatched a h people s
  = (do! begun <- run h Begin;
     if begun
     then do! counts <- insertEach h (0, 0)%nat people;
          do! committed <- run h Commit;
          if committed
          then ret (Ok {| inserted := counts.1; errors := Some counts.2 |})
          else do! _ <- run h Rollback; ret (Err (FailedToSave a Commit))
     else do! _ <- run h Rollback; ret (Err (FailedToSave a Begin))) s.
Proof.
  intros Hne. destruct people as [|p people]; [done|].
  unfold saveBatched. set (l := p :: people).
  unfold seq. destruct (run h Begin s) as [[|] s1]; [|done].
  by rewrite insertBatches_batches.
Qed.

(** C5: on a non-empty batch every adapter begins a transaction,
    attempts each eligible record in turn whatever happened to the
    earlier ones, counts each attempt as inserted or as an error, and
    commits once after the last attempt; inserted + errors is the number
    of eligible records; the save fails only when beginning (MySQL,
    PostgreSQL) or committing fails, and then rolls back. *)
Theorem save_isolates_record_failures (a : dbkind) (h : nat) (people : list obj) (s : io) :
  people <> [] ->
  exists (begun committed : bool) (outcomes : list bool) (undo : list event),
    let attempted := filter (fun p => eligible p = true) people in
    let started := match a with Sqlite => true | _ => begun end in
    let n_inserted := length (filter (fun ok => ok = true) outcomes) in
    let n_errors := length (filter (fun ok => ok = false) outcomes) in
    length outcomes = length attempted
    /\ (n_inserted + n_errors)%nat = length attempted
    /\ trace (adapter_save a h people s).2
       = trace s ++ Ran h Begin begun ::
           (if started
            then zip_with (fun p ok => Ran h (Insert (insertValues p)) ok)
                   attempted outcomes ++ [Ran h Commit committed]
            else [])
           ++ undo
    /\ (if started && committed then undo = []
        else exists ok, undo = [Ran h Rollback ok])
    /\ (adapter_save a h people s).1
       = (if started && committed
          then Ok {| inserted := n_inserted; errors := Some n_errors |}
          else Err (match a with
                    | Sqlite => FailedToCommit
                    | _ => FailedToSave a (if started then Commit else Begin)
                    end)).
Proof.
  intros Hne.
  destruct (exec h Begin (now s)) as [begun w1] eqn:Hbegin.
  set (s1 := {| now := w1; trace := trace s ++ [Ran h Begin begun] |}).
  destruct (insertEach_outcomes h (0, 0)%nat people s1)
    as (outcomes & Hlen & Hcounts & Htrace).
  cbn zeta in Hlen, Hcounts, Htrace. simpl in Hcounts.
  destruct (insertEach h (0, 0)%nat people s1) as [counts s2] eqn:Heach.
  simpl in Hcounts, Htrace. subst counts.
  destruct (exec h Commit (now s2)) as [committed w3] eqn:Hcommit.
  destruct (exec h Rollback w3) as [rb3 w4] eqn:Hrb3.
  destruct (exec h Rollback w1) as [rb1 w2] eqn:Hrb1.
  exists begun, committed, outcomes.
  destruct a.
  - exists (if committed then [] else [Ran h Rollback rb3]).
    cbn zeta. split; [done|]. split; [by rewrite outcomes_split|].
    rewrite sqlite_save_unfold by done.
    unfold seq, run, ret. rewrite Hbegin. fold s1.
    rewrite Heach, Hcommit. cbn [andb].
    destruct committed; simpl; rewrite ?Hrb3; simpl; rewrite Htrace; subst s1; simpl;
      rewrite <- ?app_assoc; simpl; eauto.
  - exists (if begun then if committed then [] else [Ran h Rollback rb3]
            else [Ran h Rollback rb1]).
    cbn zeta. split; [done|]. split; [by rewrite outcomes_split|].
    unfold adapter_save, MysqlAdapter.saveToDatabase.
    rewrite saveBatched_unfold by done.
    unfold seq, run, ret. rewrite Hbegin. fold s1.
    destruct begun; simpl; [rewrite Heach, Hcommit | rewrite Hrb1].
    + destruct committed; simpl; rewrite ?Hrb3; simpl; rewrite Htrace; subst s1; simpl;
        rewrite <- ?app_assoc; simpl; eauto.
    + subst s1. simpl. rewrite <- ?app_assoc. simpl. eauto.
  - exists (if begun then if committed then [] else [Ran h Rollback rb3]
            else [Ran h Rollback rb1]).
    cbn zeta. split; [done|]. split; [by rewrite outcomes_split|].
    unfold adapter_save, PostgresAdapter.saveToDatabase.
    rewrite saveBatched_unfold by done.
    unfold seq, run, ret. rewrite Hbegin. fold s1.
    destruct begun; simpl; [rewrite Heach, Hcommit | rewrite Hrb1].
    + destruct committed; simpl; rewrite ?Hrb3; simpl; rewrite Htrace; subst s1; simpl;
        rewrite <- ?app_assoc; simpl; eauto.
    + subst s1. simpl. rewrite <- ?app_assoc. simpl. eauto.
Qed.

Lemma adapter_save_unfold (a : dbkind) (h : nat) (people : list obj) (s : io) :
  people <> [] ->
  adapter_save a h people s
  = (do! begun <- run h Begin;
     if match a with Sqlite => true | _ => begun end
     then do! counts <- insertEach h (0, 0)%nat people;
          do! committed <- run h Commit;
          if committed
          then ret (Ok {| inserted := counts.1; errors := Some counts.2 |})
          else do! _ <- run h Rollback;
               ret (Err (match a with
                         | Sqlite => FailedToCommit
                         | _ => FailedToSave a Commit
                         end))
     else do! _ <- run h Rollback; ret (Err (FailedToSave a Begin))) s.
Proof.
  intros Hne. destruct a.
  - by rewrite sqlite_save_unfold.
  - unfold adapter_save, MysqlAdapter.saveToDatabase. by rewrite saveBatched_unfold.
  - unfold adapter_save, PostgresAdapter.saveToDatabase. by rewrite saveBatched_unfold.
Qed.

(** C4: a record is skipped exactly when it has no birth_date, no
    external_id and not both first_name and last_name; in every
    adapter such a record of a batch leaves the result, the engine and
    the trace of the save as they are without it, so it is attempted
    and counted nowhere; and a batch made of one such record, for
    instance one with a status only, begins and commits with no insert
    in between and answers inserted 0 and errors 0. *)
Theorem save_skips_ineligible (a : dbkind) (h : nat) :
  (forall person : obj,
      eligible person = false
      <-> field_truthy (js "birth_date") person = false
          /\ field_truthy (js "external_id") person = false
          /\ (field_truthy (js "first_name") person = false
              \/ field_truthy (js "last_name") person = false))
  /\ (forall (pre post : list obj) (r : obj) (s : io),
         eligible r = false -> pre ++ post <> [] ->
         adapter_save a h (pre ++ r :: post) s = adapter_save a h (pre ++ post) s)
  /\ (forall (r : obj) (s : io) (begun : bool) (w1 w2 : world),
         eligible r = false ->
         exec h Begin (now s) = (begun, w1) ->
         a = Sqlite \/ begun = true ->
         exec h Commit w1 = (true, w2) ->
         adapter_save a h [r] s
         = (Ok {| inserted := 0; errors := Some 0%nat |},
            {| now := w2;
               trace := trace s ++ [Ran h Begin begun; Ran h Commit true] |}))
  /\ (forall v : jsstring, eligible [(js "status", v)] = false).
Proof.
  split; [apply eligible_false|]. split; [|split].
  - intros pre post r s Hr Hne.
    rewrite !adapter_save_unfold; [|done | by destruct pre].
    unfold seq. destruct (run h Begin s) as [begun s1].
    destruct (match a with Sqlite => true | _ => begun end); [|done].
    by rewrite insertEach_skip.
  - intros r s begun w1 w2 Hr Hbegin Hstart Hcommit.
    rewrite adapter_save_unfold by done.
    unfold seq, run, ret. rewrite Hbegin.
    assert (match a with Sqlite => true | _ => begun end = true) as ->.
    { destruct Hstart as [-> | ->]; [done | by destruct a]. }
    cbn [insertEach]. unfold seq, ret. rewrite insertPerson_skipped by done.
    cbn [now trace]. rewrite Hcommit. cbn [fst snd].
    by rewrite <- app_assoc.
  - intros v. unfold eligible, field_truthy.
    assert (Hb : obj_get (js "birth_date") [(js "status", v)] = None)
      by (by vm_compute).
    assert (He : obj_get (js "external_id") [(js "status", v)] = None)
      by (by vm_compute).
    assert (Hf : obj_get (js "first_name") [(js "status", v)] = None)
      by (by vm_compute).
    by rewrite Hb, He, Hf.
Qed.

End AdapterFacts.

Section AdapterWitnesses.
Import Sample.

Lemma save_isolates_record_failures_witness :
  people <> []
  /\ (adapter_save (H := Sample.engine) Mysql 0 people (sys Sample.start)).1
     = Ok {| inserted := 2; errors := Some 1%nat |}
  /\ exists outcomes : list bool,
       length outcomes = 3%nat
       /\ (length (filter (fun ok => ok = true) outcomes)
           + length (filter (fun ok => ok = false) outcomes))%nat = 3%nat.
Proof.
  assert (Hne : people <> []) by done.
  split; [exact Hne|]. split; [by vm_compute|].
  destruct (save_isolates_record_failures (H := Sample.engine) Mysql 0 people
              (sys Sample.start) Hne)
    as (begun & committed & outcomes & undo & Hlen & Hsum & _).
  exists outcomes. split; [exact Hlen | exact Hsum].
Defined.

Lemma save_skips_ineligible_witness :
  let only_status := Sample.record [("status", "Actif")] in
  eligible only_status = false
  /\ adapter_save (H := Sample.engine) Postgres 0 [only_status] (sys Sample.start)
     = (Ok {| inserted := 0; errors := Some 0%nat |},
        @Build_io Sample.engine (0%nat, [])
          [Ran 0 Begin true; Ran 0 Commit true])
  /\ adapter_save (H := Sample.engine) Sqlite 0
       (hd [] people :: only_status :: tl people) (sys Sample.start)
     = adapter_save (H := Sample.engine) Sqlite 0 people (sys Sample.start).
Proof.
  intros only_status.
  assert (Hskip : eligible only_status = false) by (by vm_compute).
  split; [exact Hskip|]. split.
  - apply (proj1 (proj2 (proj2 (save_skips_ineligible (H := Sample.engine) Postgres 0)))
             only_status (sys Sample.start) true (0%nat, []) (0%nat, []));
      [exact Hskip | reflexivity | by right | reflexivity].
  - apply (proj1 (proj2 (save_skips_ineligible (H := Sample.engine) Sqlite 0))
             [hd [] people] (tl people) only_status (sys Sample.start));
      [exact Hskip | done].
Defined.

End AdapterWitnesses.

(** ** The connection registry *)
Section RegistryFacts.
Context `{Engine}.

Lemma lift_state {A} (m : M A) (st : state) :
  (lift m st).2
  = {| activeConnections := activeConnections st;
       allocated := allocated st;
       sys := (m (sys st)).2 |}
  /\ (lift m st).1 = (m (sys st)).1.
Proof. unfold lift. by destruct (m (sys st)). Qed.

Lemma getConnection_cached (connectionId : option jsstring) (opts : options)
  (st : state) (c : connectionObject) :
  activeConnections st !! default (js "default") connectionId = Some c ->
  getConnection connectionId opts st = (Ok c, st).
Proof. intros Hc. unfold getConnection. by rewrite Hc. Qed.

Lemma getConnection_fresh (connectionId : option jsstring) (opts : options)
  (st st1 : state) (c : connectionObject) :
  activeConnections st !! default (js "default") connectionId = None ->
  getConnection connectionId opts st = (Ok c, st1) ->
  exists arg,
    open (adapter c) arg (now (sys st)) = (Some (connection c), now (sys st1))
    /\ trace (sys st1)
       = trace (sys st) ++ [Opened (adapter c) arg (Some (connection c))]
    /\ ref c = allocated st
    /\ allocated st1 = S (allocated st)
    /\ activeConnections st1
       = <[default (js "default") connectionId := c]> (activeConnections st).
Proof.
  intros Hnone. unfold getConnection. rewrite Hnone.
  match goal with |- context [initialize ?a ?arg] =>
    set (a0 := a); set (arg0 := arg) end.
  unfold lift, initialize.
  destruct (open a0 arg0 (now (sys st))) as [[h|] w'] eqn:Hopen; simpl;
    intros [= <- <-]; simpl.
  exists arg0. by rewrite Hopen.
Qed.

Lemma closeConnection_other (connectionId : option jsstring) (forceClose : bool)
  (st : state) (id : jsstring) :
  default (js "default") connectionId <> id ->
  activeConnections (closeConnection connectionId forceClose st).2 !! id
  = activeConnections st !! id.
Proof.
  intros Hne. unfold closeConnection.
  destruct (activeConnections st !! default (js "default") connectionId) as [c|];
    [|done].
  match goal with |- context [lift ?m st] =>
    destruct (lift_state m st) as [E1 E2]; destruct (lift m st) as [[[]|e] st'] end;
    simpl in *; subst st'; simpl; [by rewrite lookup_delete_ne | done].
Qed.

Lemma getConnection_other (connectionId : option jsstring) (opts : options)
  (st : state) (id : jsstring) :
  default (js "default") connectionId <> id ->
  activeConnections (getConnection connectionId opts st).2 !! id
  = activeConnections st !! id.
Proof.
  intros Hne. unfold getConnection.
  destruct (activeConnections st !! default (js "default") connectionId) as [c|];
    [done|].
  match goal with |- context [lift ?m st] =>
    destruct (lift_state m st) as [E1 E2]; destruct (lift m st) as [[h|] st'] end;
    simpl in *; subst st'; simpl; [by rewrite lookup_insert_ne | done].
Qed.

(** C8: the first getConnection for an identifier calls the adapter's
    initialize once and caches the connection object it builds; while
    that entry is there (requests and closes for other identifiers
    leave it alone) every getConnection for the identifier returns this
    very object and changes nothing, so initialize is not called again;
    a closeConnection for the identifier that completes removes the
    entry, and the next getConnection initializes anew and builds a new
    object. *)
Theorem registry_lifecycle (connectionId : option jsstring) (opts : options)
  (st st1 : state) (c : connectionObject) :
  let id := default (js "default") connectionId in
  activeConnections st !! id = None ->
  getConnection connectionId opts st = (Ok c, st1) ->
  (activeConnections st1 !! id = Some c
   /\ exists arg,
        trace (sys st1)
        = trace (sys st) ++ [Opened (adapter c) arg (Some (connection c))])
  /\ (forall (opts' : options) (st' : state),
         activeConnections st' !! id = Some c ->
         getConnection connectionId opts' st' = (Ok c, st'))
  /\ (forall (other : option jsstring) (opts' : options) (force : bool) (st' : state),
         default (js "default") other <> id ->
         activeConnections st' !! id = Some c ->
         activeConnections (getConnection other opts' st').2 !! id = Some c
         /\ activeConnections (closeConnection other force st').2 !! id = Some c)
  /\ (forall (force : bool) (st2 : state),
         closeConnection connectionId force st1 = (Ok tt, st2) ->
         activeConnections st2 !! id = None
         /\ forall (opts' : options) (c' : connectionObject) (st3 : state),
              getConnection connectionId opts' st2 = (Ok c', st3) ->
              ref c' <> ref c
              /\ activeConnections st3 !! id = Some c'
              /\ exists arg,
                   trace (sys st3)
                   = trace (sys st2)
                     ++ [Opened (adapter c') arg (Some (connection c'))]).
Proof.
  intros id Hnone Hget.
  destruct (getConnection_fresh _ _ _ _ _ Hnone Hget)
    as (arg & _ & Htrace & Href & Halloc & Hmap).
  fold id in Hmap.
  assert (Hentry : activeConnections st1 !! id = Some c)
    by (rewrite Hmap; apply lookup_insert_eq).
  split; [split; [done | by exists arg]|].
  split; [intros opts' st' Hc; by apply getConnection_cached|].
  split.
  { intros other opts' force st' Hne Hc.
    by rewrite getConnection_other, closeConnection_other. }
  intros force st2 Hclose.
  assert (Hst2 : activeConnections st2 !! id = None /\ allocated st2 = allocated st1).
  { unfold closeConnection in Hclose. fold id in Hclose. rewrite Hentry in Hclose.
    match type of Hclose with context [lift ?m st1] =>
      destruct (lift_state m st1) as [E1 E2];
      destruct (lift m st1) as [[[]|e] st'] end; [|done].
    injection Hclose as <-. simpl in *. subst st'. simpl.
    split; [apply lookup_delete_eq | done]. }
  destruct Hst2 as [Hgone Halloc2]. split; [done|].
  intros opts' c' st3 Hget'.
  destruct (getConnection_fresh _ _ _ _ _ Hgone Hget')
    as (arg' & _ & Htrace' & Href' & _ & Hmap').
  fold id in Hmap'.
  split; [lia|]. split; [rewrite Hmap'; apply lookup_insert_eq | by exists arg'].
Qed.

End RegistryFacts.

Section RegistryWitness.

Lemma registry_lifecycle_witness :
  let c := {| ref := 0; connection := 0; adapter := Sqlite; type := js "sqlite" |} in
  let st1 := (getConnection (H := Sample.engine) (Some (js "x")) no_options Sample.start).2 in
  let st2 := (closeConnection (Some (js "x")) false st1).2 in
  activeConnections Sample.start !! js "x" = None
  /\ getConnection (Some (js "x")) no_options Sample.start = (Ok c, st1)
  /\ getConnection (Some (js "x")) no_options st1 = (Ok c, st1)
  /\ closeConnection (Some (js "x")) false st1 = (Ok tt, st2)
  /\ activeConnections st2 !! js "x" = None.
Proof.
  intros c st1 st2.
  assert (H0 : activeConnections Sample.start !! js "x" = None) by apply lookup_empty.
  assert (H1 : getConnection (Some (js "x")) no_options Sample.start = (Ok c, st1))
    by (vm_compute; reflexivity).
  assert (H2 : closeConnection (Some (js "x")) false st1 = (Ok tt, st2))
    by (vm_compute; reflexivity).
  destruct (registry_lifecycle (H := Sample.engine) (Some (js "x")) no_options
              Sample.start st1 c H0 H1) as ([Hentry _] & Hreuse & _ & Hclose).
  split; [exact H0|]. split; [exact H1|].
  split; [exact (Hreuse no_options st1 Hentry)|].
  split; [exact H2|].
  exact (proj1 (Hclose false st2 H2)).
Defined.

End RegistryWitness.

(** ** Saving through the registry, and the import *)
Section ImportFacts.
Context `{Engine}.




End ImportFacts.

Section ImportWitnesses.



End ImportWitnesses.

(** * Further properties *)

(** ** Shaping of rows *)
Section ShapingFacts.
Import ExcelParser Reference.

Lemma map_result_Forall2 {E A B} (f : A -> result E B) (xs : list A) (ys : list B) :
  map_result f xs = Ok ys -> Forall2 (fun x y => f x = Ok y) xs ys.
Proof.
  revert ys. induction xs as [|x xs IH]; intros ys; simpl.
  - intros [= <-]. constructor.
  - destruct (f x) as [y|e] eqn:Hx; [|done]. simpl.
    destruct (map_result f xs) as [ys'|e] eqn:Hxs; [|done]. simpl.
    intros [= <-]. constructor; [done | by apply IH].
Qed.

(** Every data row that is not blank yields exactly one record, the
    records come in the order of the rows, and blank rows yield
    none. *)
Theorem parseExcel_one_record_per_filled_row (rawData : list row) (people : list obj) :
  (parseExcel rawData).2 = Ok people ->
  Forall2 (fun r person => shapeRow (mapHeaders (hd [] rawData)) r = Ok person)
    (filter (fun r => keepRow r = true) (tl rawData)) people
  /\ length people = length (filter (fun r => keepRow r = true) (tl rawData))
  /\ (length people < length rawData)%nat.
Proof.
  unfold parseExcel, parseRows.
  destruct rawData as [|headerRow [|r rows]]; simpl; [done..|].
  destruct (identifiable (mapHeaders headerRow)); [|done].
  destruct (map_result _ _) as [ps|e] eqn:Hmap; [|done]. simpl. intros [= <-].
  pose proof (map_result_Forall2 _ _ _ Hmap) as HF.
  split; [exact HF|]. apply Forall2_length in HF.
  split; [done|]. rewrite <- HF.
  pose proof (length_filter (fun r0 => keepRow r0 = true) (r :: rows)) as Hle.
  simpl in Hle. lia.
Qed.

Lemma parseExcel_one_record_per_filled_row_witness :
  let sheet := [ Sample.cells ["id"; "nom"]; Sample.cells ["A1"; "Girard"]; [];
                 Sample.cells [""; ""]; Sample.cells ["B2"; "Thomas"] ] in
  exists people,
    (parseExcel sheet).2 = Ok people /\ length people = 2%nat.
Proof.
  intros sheet.
  destruct (parseExcel sheet) as [ws [people|e]] eqn:E; [|by vm_compute in E].
  exists people. split; [reflexivity|].
  destruct (parseExcel_one_record_per_filled_row sheet people) as (_ & Hlen & _).
  { by rewrite E. }
  exact Hlen.
Defined.










Lemma indexOf_includes (name : string) (hs : list jsval) (i : nat) :
  indexOf name hs = Some i -> includes name hs = true.
Proof.
  unfold includes. rewrite bool_decide_eq_true.
  revert i. induction hs as [|h hs IH]; intros i; simpl; [done|].
  destruct (decide (h = VString (js name))) as [-> | Hne]; [intros _; by left|].
  destruct (indexOf name hs) as [j|]; [|done]. intros _.
  right. by apply (IH j).
Qed.

(** In a sheet with last-name and first-name columns and no name
    column, a row that reaches both columns always gets a name: the
    trimmed text of the cell under the first last-name column, a space
    and the cell under the first first-name column, also when one of
    the two cells is empty. *)
Theorem shapeRow_french_name (hs : list jsval) (r : row) (p : obj)
  (lastNameIndex firstNameIndex : nat) (lc fc : cell) :
  includes "name" hs = false ->
  indexOf "last_name" hs = Some lastNameIndex ->
  indexOf "first_name" hs = Some firstNameIndex ->
  r !! lastNameIndex = Some lc ->
  r !! firstNameIndex = Some fc ->
  shapeRow hs r = Ok p ->
  exists lastName firstName,
    cellText lc = Ok lastName /\ cellText fc = Ok firstName
    /\ obj_get (js "name") p = Some (trim (spaced lastName firstName)).
Proof.
  intros Hn Hl Hf Hlc Hfc. unfold shapeRow.
  destruct (fillPerson hs r []) as [person|e]; [|done]. simpl.
  unfold frenchName.
  rewrite Hn, (indexOf_includes _ _ _ Hl), (indexOf_includes _ _ _ Hf), Hl, Hf, Hlc, Hfc.
  simpl. destruct (cellText lc) as [lv|]; [|done].
  destruct (cellText fc) as [fv|]; [|done]. simpl. intros [= <-].
  exists lv, fv. repeat split. rewrite obj_get_set. by rewrite decide_True.
Qed.

Lemma shapeRow_french_name_witness :
  let hs := mapHeaders (Sample.cells ["matricule"; "nom"; "prenom"]) in
  let r := Sample.cells ["A1"; "Girard"; ""] in
  exists p, shapeRow hs r = Ok p /\ obj_get (js "name") p = Some (js "Girard").
Proof.
  intros hs r.
  destruct (shapeRow hs r) as [p|e] eqn:E; [|by vm_compute in E].
  exists p. split; [reflexivity|].
  destruct (shapeRow_french_name hs r p 1 2 (CString (js "Girard")) (CString [])
              ltac:(by vm_compute) ltac:(by vm_compute) ltac:(by vm_compute)
              ltac:(by vm_compute) ltac:(by vm_compute) E)
    as (lv & fv & [= <-] & [= <-] & H).
  exact H.
Defined.

End ShapingFacts.

(** ** The streaming path *)
Section StreamingFacts.
Import ExcelParser ExcelStreaming.






(** On a sheet with fewer than two rows the paths differ: the
    whole-sheet path always fails for lack of data, while the streaming
    path fails on an empty sheet because there is no header row, and on
    a sheet with a header row only returns no record (or fails when the
    header identifies nobody). *)
Theorem streaming_differs_on_short_sheet (grid : list row) (readRows : nat -> list row)
  (totalRows : nat) (chunkSize : N) :
  (forall n, (0 < n)%nat -> readRows n = take n grid) ->
  readRows 0%nat = grid ->
  totalRows = length grid ->
  (length grid < 2)%nat ->
  (parseExcelWith false readRows totalRows chunkSize).2
  = Err (OfSheet (FailedToParse NotEnoughData))
  /\ (parseExcelWith true readRows totalRows chunkSize).2
     = match grid with
       | [] => Err (OfStreaming (FailedToParseStreaming NoHeaderRow))
       | headerRow :: _ =>
           if identifiable (mapHeaders headerRow) then Ok []
           else Err (OfStreaming (FailedToParseStreaming (Thrown NotEnoughInformation)))
       end.
Proof.
  intros Hread H0 -> Hlen.
  unfold parseExcelWith, parseExcelStreaming, streamRows, parseExcel, parseRows.
  rewrite H0, Hread by lia.
  destruct grid as [|headerRow [|r rows]]; simpl in Hlen; [done| |lia].
  split; [done|]. cbn [take length].
  by destruct (identifiable (mapHeaders headerRow)).
Qed.

Lemma streaming_differs_on_short_sheet_witness :
  let grid := [ Sample.cells ["matricule"; "nom"; "prenom"] ] in
  (parseExcelWith false (reader grid) 1 0).2
  = Err (OfSheet (FailedToParse NotEnoughData))
  /\ (parseExcelWith true (reader grid) 1 0).2 = Ok [].
Proof.
  intros grid.
  destruct (streaming_differs_on_short_sheet grid (reader grid) 1 0) as [A B];
    [intros [|n] Hn; [lia | reflexivity] | done | done | simpl; lia |].
  split; [exact A|]. rewrite B. by vm_compute.
Defined.

End StreamingFacts.

(** ** Field normalisation: what becomes of the keys *)
Section AliasFacts.
Import Reference.

Lemma fieldMappings_keys_mapped :
  Forall (fun kv => prop_truthy fieldMappings (js kv.1) <> None) fieldMappings.
Proof. by_evaluation. Qed.

(** No alias spelling survives the normalisation: the output has no
    key of the alias table. *)
Theorem normalizePersonFields_drops_aliases (person : obj) :
  Forall (fun kv => js kv.1 ∉ keys (normalizePersonFields person)) fieldMappings.
Proof.
  pose proof fieldMappings_keys_mapped as HF.
  eapply Forall_impl; [exact HF|]. intros kv Hkv Hin. cbv beta in *.
  by apply normalizePersonFields_unmapped in Hin.
Qed.

Lemma aliasValues_cons (target : jsstring) (entry : jsstring * jsstring) (person : obj) :
  aliasValues target (entry :: person)
  = match prop_truthy fieldMappings entry.1 with
    | Some t => if decide (property_key t = target)
                then entry.2 :: aliasValues target person
                else aliasValues target person
    | None => aliasValues target person
    end.
Proof.
  unfold aliasValues. cbn [omap list_omap].
  destruct (prop_truthy fieldMappings entry.1) as [t|]; [|done].
  by destruct (decide (property_key t = target)).
Qed.

Lemma last_cons_some {A} (x : A) (l : list A) :
  last (x :: l) = match last l with Some y => Some y | None => Some x end.
Proof.
  destruct l as [|y l]; [done|]. change (last (x :: y :: l)) with (last (y :: l)).
  assert (H : exists z, last (y :: l) = Some z).
  { clear x. revert y. induction l as [|y' l IH]; intros y; [by exists y|].
    apply (IH y'). }
  destruct H as [z ->]. done.
Qed.

Lemma fold_mapEntry_lookup (target : jsstring) (entries normalized : obj) :
  prop_truthy fieldMappings target = None ->
  obj_get target (fold_left mapEntry entries normalized)
  = match last (aliasValues target entries) with
    | Some v => Some v
    | None => obj_get target normalized
    end.
Proof.
  intros Ht. revert normalized.
  induction entries as [|[k v] entries IH]; intros normalized; [done|].
  cbn [fold_left]. rewrite IH, aliasValues_cons. unfold mapEntry. cbn [fst snd].
  destruct (prop_truthy fieldMappings k) as [t|] eqn:Hk; [|done].
  assert (Hne : k <> target) by congruence.
  assert (Hget : obj_get target
                   (if decide (VString k = t)
                    then obj_set (property_key t) v normalized
                    else obj_delete k (obj_set (property_key t) v normalized))
                 = if decide (property_key t = target) then Some v
                   else obj_get target normalized).
  { destruct (decide (VString k = t)).
    - apply obj_get_set.
    - rewrite obj_get_delete, decide_False by done. apply obj_get_set. }
  rewrite Hget. destruct (decide (property_key t = target)).
  - rewrite last_cons_some. by destruct (last (aliasValues target entries)).
  - done.
Qed.

(** For a field other than the three name fields: if the record has
    keys that the alias table maps to the field, the output holds the
    value of the last of them in property order, also when the record
    has the field under its canonical key, before or after; otherwise
    the field is as in the input.  In particular a key that is neither
    an alias nor the target of one passes through. *)
Theorem normalizePersonFields_alias_wins (person : obj) (target : jsstring) :
  prop_truthy fieldMappings target = None ->
  target ∉ map js ["name"; "first_name"; "last_name"]%string ->
  obj_get target (normalizePersonFields person)
  = match last (aliasValues target person) with
    | Some v => Some v
    | None => obj_get target person
    end.
Proof.
  intros Ht Hname. unfold normalizePersonFields.
  destruct (derive_preserves (applyMappings person)) as (_ & P & _).
  rewrite P by done. by apply fold_mapEntry_lookup.
Qed.

Lemma normalizePersonFields_alias_wins_witness :
  let person := Sample.record [("id", "A1"); ("external_id", "B2"); ("ID", "C3");
                               ("Custom Field", "kept")] in
  obj_get (js "external_id") (normalizePersonFields person) = Some (js "C3")
  /\ obj_get (js "Custom Field") (normalizePersonFields person) = Some (js "kept").
Proof.
  intros person. split.
  - rewrite (normalizePersonFields_alias_wins person (js "external_id"));
      [by vm_compute | by vm_compute |].
    intros H. vm_compute in H. by repeat (apply elem_of_cons in H as [H | H]; [done|]);
      apply not_elem_of_nil in H.
  - rewrite (normalizePersonFields_alias_wins person (js "Custom Field"));
      [by vm_compute | by vm_compute |].
    intros H. vm_compute in H. by repeat (apply elem_of_cons in H as [H | H]; [done|]);
      apply not_elem_of_nil in H.
Defined.

End AliasFacts.

(** ** What an insert stores *)
Section StoredFacts.

Lemma obj_get_filter_keys (P : jsstring -> Prop) `{!forall k, Decision (P k)}
  (k : jsstring) (o : obj) :
  obj_get k (filter (fun kv => P kv.1) o)
  = if decide (P k) then obj_get k o else None.
Proof.
  induction o as [|[k0 v0] o IH]; simpl.
  - by case_decide.
  - rewrite filter_cons. cbn [fst]. destruct (decide (P k0)) as [Hk0 | Hk0].
    + cbn [obj_get]. destruct (decide (k0 = k)) as [-> | Hne].
      * by destruct (decide (P k)).
      * exact IH.
    + rewrite IH. destruct (decide (k0 = k)) as [-> | Hne]; [|done].
      by destruct (decide (P k)).
Qed.

Lemma additionalData_lookup (person : obj) (k : jsstring) :
  obj_get k (additionalData person)
  = if decide (k ∈ map js knownFields) then None else obj_get k person.
Proof.
  unfold additionalData.
  pose proof (obj_get_filter_keys (fun k => k ∉ map js knownFields) k person) as H.
  cbv beta in H. rewrite H.
  destruct (decide (k ∈ map js knownFields)).
  - by rewrite decide_False by tauto.
  - by rewrite decide_True.
Qed.

(** The additional data of a record is the record without the five
    core fields, every other key with its value; it is stored as null
    exactly when the record has no other key. *)
Theorem insertValues_additional_data (person : obj) :
  (forall k, obj_get k (additionalData person)
             = if decide (k ∈ map js knownFields) then None else obj_get k person)
  /\ (v_additional_data (insertValues person) = None
      <-> forall k, k ∈ keys person -> k ∈ map js knownFields)
  /\ (forall extra, v_additional_data (insertValues person) = Some extra ->
                    extra = additionalData person /\ extra <> []).
Proof.
  split; [|split].
  - intros k. apply additionalData_lookup.
  - unfold insertValues. cbn [v_additional_data]. unfold additionalData, keys.
    split.
    + intros Hnone k Hk.
      destruct (filter _ person) as [|kv l] eqn:E; [|done].
      apply list_elem_of_fmap in Hk as ([k0 v0] & -> & Hin).
      destruct (decide (k0 ∈ map js knownFields)) as [|Hout]; [done|].
      assert (Hf : (k0, v0) ∈ filter (fun kv => kv.1 ∉ map js knownFields) person)
        by (by apply list_elem_of_filter).
      rewrite E in Hf. by apply not_elem_of_nil in Hf.
    + intros Hall.
      destruct (filter _ person) as [|[k0 v0] l] eqn:E; [done|]. exfalso.
      assert (Hf : (k0, v0) ∈ filter (fun kv => kv.1 ∉ map js knownFields) person)
        by (rewrite E; by left).
      apply list_elem_of_filter in Hf as [Hout Hin]. apply Hout, Hall.
      apply list_elem_of_fmap. by exists (k0, v0).
  - intros extra. unfold insertValues. cbn [v_additional_data].
    destruct (additionalData person) as [|kv l]; [done|]. by intros [= <-].
Qed.

Lemma insertValues_additional_data_witness :
  let person := Sample.record [("external_id", "A1"); ("status", "Actif")] in
  v_additional_data (insertValues person) = None.
Proof.
  intros person.
  apply (proj1 (proj2 (insertValues_additional_data person))).
  apply Forall_forall. by_evaluation.
Defined.

(** A record that comes out of the normalisation with a first and a
    last name carries a name, and since name is not a column the insert
    stores that name in the additional data, which is then never
    null. *)
Theorem normalized_name_is_stored (person : obj) :
  let out := normalizePersonFields person in
  field_truthy (js "first_name") out = true ->
  field_truthy (js "last_name") out = true ->
  exists extra name,
    v_additional_data (insertValues out) = Some extra
    /\ obj_get (js "name") out = Some name
    /\ obj_get (js "name") extra = Some name.
Proof.
  intros out Hf Hl.
  assert (Hname : exists name, obj_get (js "name") out = Some name).
  { subst out. unfold normalizePersonFields in *.
    set (x := splitName (applyMappings person)) in *.
    destruct (joinName_fills x) as [E | (Hn & v & E)].
    - rewrite E in *. unfold joinName in E.
      destruct (field_truthy (js "name") x) eqn:Hn.
      + apply field_truthy_get in Hn as [Hn _]. eauto.
      + rewrite Hf, Hl in E. cbn [negb andb] in E.
        pose proof (f_equal (obj_get (js "name")) E) as E2.
        rewrite obj_get_set, decide_True in E2 by done. eauto.
    - rewrite E. exists v. rewrite obj_get_set. by rewrite decide_True. }
  destruct Hname as [name Hname].
  pose proof (additionalData_lookup out (js "name")) as Hget.
  rewrite decide_False, Hname in Hget
    by (intros H; vm_compute in H;
        repeat (apply elem_of_cons in H as [H | H]; [done|]);
        by apply not_elem_of_nil in H).
  unfold insertValues. cbn [v_additional_data].
  destruct (additionalData out) as [|kv l] eqn:E'; [done|].
  exists (kv :: l), name. done.
Qed.

Lemma normalized_name_is_stored_witness :
  let person := Sample.record [("prenom", "David"); ("nom", "Girard")] in
  exists extra,
    v_additional_data (insertValues (normalizePersonFields person)) = Some extra
    /\ obj_get (js "name") extra = Some (js "Girard David").
Proof.
  intros person.
  destruct (normalized_name_is_stored person) as (extra & name & H1 & H2 & H3);
    [by vm_compute | by vm_compute |].
  exists extra. split; [exact H1|]. rewrite H3, <- H2. by vm_compute.
Defined.

End StoredFacts.

(** ** Batches *)
Section BatchFacts.

Lemma slices_bounds {A} (rounds size : nat) (l : list A) :
  (0 < size)%nat ->
  Forall (fun b => (0 < length b <= size)%nat) (slices rounds size l).
Proof.
  intros Hsize. revert l. induction rounds as [|rounds IH]; intros l; [constructor|].
  destruct l as [|x l]; [constructor|]. cbn [slices]. constructor; [|apply IH].
  rewrite length_take. destruct size; [lia|]. simpl. lia.
Qed.

Lemma slices_count {A} (rounds size : nat) (l : list A) :
  (0 < size)%nat -> (length l <= rounds)%nat ->
  length (slices rounds size l) = ((length l + size - 1) / size)%nat.
Proof.
  intros Hsize. revert l. induction rounds as [|rounds IH]; intros l Hlen.
  - destruct l; [|simpl in Hlen; lia]. simpl.
    symmetry. apply Nat.div_small. lia.
  - destruct l as [|x l]; [simpl; symmetry; apply Nat.div_small; lia|].
    cbn [slices length]. rewrite IH by (rewrite length_drop; simpl in *; lia).
    rewrite length_drop. cbn [length].
    destruct (decide (size <= S (length l))%nat) as [Hle | Hgt].
    + replace (S (length l) + size - 1)%nat
        with ((S (length l) - size + size - 1) + 1 * size)%nat by lia.
      rewrite Nat.div_add by lia. lia.
    + replace (S (length l) - size)%nat with 0%nat by lia.
      rewrite (Nat.div_small (0 + size - 1)) by lia.
      apply (Nat.div_unique _ _ 1 (S (length l) - 1)); lia.
Qed.

(** Cutting a list into batches of a positive size loses and reorders
    nothing; every batch has at least one and at most [size] elements,
    and there are as many batches as the length divided by the size,
    rounded up. *)
Theorem batches_partition {A} (size : nat) (l : list A) :
  (0 < size)%nat ->
  concat (batches size l) = l
  /\ Forall (fun b => (0 < length b <= size)%nat) (batches size l)
  /\ length (batches size l) = ((length l + size - 1) / size)%nat.
Proof.
  intros Hsize. unfold batches. split; [by apply concat_slices|].
  split; [by apply slices_bounds | by apply slices_count].
Qed.

Lemma batches_partition_witness :
  concat (batches 2 [1; 2; 3; 4; 5]%nat) = [1; 2; 3; 4; 5]%nat
  /\ length (batches 2 [1; 2; 3; 4; 5]%nat) = 3%nat.
Proof.
  destruct (batches_partition 2 [1; 2; 3; 4; 5]%nat) as (H1 & _ & H3); [lia|].
  split; [exact H1 | exact H3].
Defined.

End BatchFacts.

(** ** The adapters side by side *)
Section AdapterAgreement.
Context `{Engine}.

(** When the engine accepts BEGIN, the three adapters do the same on
    the same batch: the same commands in the same order, the same
    counts, and a failure of one is a failure of the others. *)
Theorem adapters_agree (a a' : dbkind) (h : nat) (people : list obj) (s : io)
  (w1 : world) :
  exec h Begin (now s) = (true, w1) ->
  (adapter_save a h people s).2 = (adapter_save a' h people s).2
  /\ forall r, (adapter_save a h people s).1 = Ok r
               <-> (adapter_save a' h people s).1 = Ok r.
Proof.
  intros Hbegin. destruct people as [|p people].
  { by destruct a, a'. }
  rewrite !adapter_save_unfold by done.
  unfold seq, run, ret. rewrite Hbegin.
  assert (forall k : dbkind, match k with Sqlite => true | _ => true end = true) as E
    by (by intros []).
  rewrite !E.
  destruct (insertEach h (0, 0)%nat (p :: people) _) as [counts s2].
  destruct (exec h Commit (now s2)) as [[|] w3]; [done|].
  destruct (exec h Rollback _) as [rb w4]. cbn [fst snd]. done.
Qed.


End AdapterAgreement.

Section AdapterAgreementWitness.

Lemma adapters_agree_witness :
  adapter_save (H := Sample.engine) Sqlite 0 Sample.people (sys Sample.start)
  = adapter_save (H := Sample.engine) Postgres 0 Sample.people (sys Sample.start).
Proof.
  destruct (adapters_agree (H := Sample.engine) Sqlite Postgres 0 Sample.people
              (sys Sample.start) (0%nat, []) eq_refl) as [Hst Hres].
  destruct (adapter_save (H := Sample.engine) Sqlite 0 Sample.people (sys Sample.start))
    as [[r|e] st] eqn:E; [|by vm_compute in E].
  destruct (adapter_save (H := Sample.engine) Postgres 0 Sample.people (sys Sample.start))
    as [r' st'].
  simpl in Hst, Hres. subst st'. by rewrite (proj1 (Hres r) eq_refl).
Defined.

End AdapterAgreementWitness.

(** ** The registry: failures and the invariant *)
Section RegistryMore.
Context `{Engine}.
Import Reference.

Lemma adapter_close_failure (a : dbkind) (h : nat) (force : bool) (s : io)
  (e : close_error) :
  (adapter_close a h force s).1 = Err e ->
  a <> Postgres /\ e = FailedToClose a
  /\ trace (adapter_close a h force s).2 = trace s ++ [Ran h Close false].
Proof.
  destruct a; unfold adapter_close, SqliteAdapter.closeDatabase,
    MysqlAdapter.closeDatabase, PostgresAdapter.closeDatabase, seq, run, ret.
  - destruct (exec h Close (now s)) as [[|] w']; simpl; [done|]. by intros [= <-].
  - destruct (exec h Close (now s)) as [[|] w']; simpl; [done|]. by intros [= <-].
  - destruct (exec h Close (now s)) as [ok w']. destruct force; [|done].
    cbn [now]. by destruct (exec h PoolEnd w').
Qed.

(** What a close leaves behind: either the identifier is no longer
    cached, or its close was attempted on the engine and failed, in
    which case the entry and the whole registry stay as they were. *)
Lemma closeConnection_post (connectionId : option jsstring) (forceClose : bool)
  (st : state) :
  let id := default (js "default") connectionId in
  let out := closeConnection connectionId forceClose st in
  allocated out.2 = allocated st
  /\ ((out.1 = Ok tt /\ activeConnections out.2 = delete id (activeConnections st))
      \/ (exists c,
            activeConnections st !! id = Some c
            /\ out.1 = Err (FailedToClose (adapter c))
            /\ adapter c <> Postgres
            /\ activeConnections out.2 = activeConnections st
            /\ trace (sys out.2)
               = trace (sys st) ++ [Ran (connection c) Close false])).
Proof.
  intros id out. subst out. unfold closeConnection. fold id.
  destruct (activeConnections st !! id) as [c|] eqn:Hc.
  - match goal with |- context [lift ?m st] =>
      destruct (lift_state m st) as [E1 E2];
      pose proof (adapter_close_failure (adapter c) (connection c)
                    (if decide (type c = js "postgres" \/ type c = js "postgresql")
                     then forceClose else false) (sys st)) as Hfail;
      destruct (lift m st) as [[[]|e] st1] end; simpl in *; subst st1; simpl.
    + split; [done|]. by left.
    + split; [done|]. right. exists c.
      destruct (Hfail e (eq_sym E2)) as (Ha & -> & Htr). done.
  - simpl. split; [done|]. left. split; [done|].
    symmetry. by apply delete_id.
Qed.

(** A close that fails leaves the connection object cached: the next
    request for the identifier gets this same object back and nothing
    is initialised.  Only the SQLite and MySQL adapters can make a
    close fail; closing a PostgreSQL connection never does. *)
Theorem closeConnection_failure_keeps_entry (connectionId : option jsstring)
  (forceClose : bool) (st st' : state) (e : close_error) :
  closeConnection connectionId forceClose st = (Err e, st') ->
  exists c,
    activeConnections st !! default (js "default") connectionId = Some c
    /\ adapter c <> Postgres
    /\ e = FailedToClose (adapter c)
    /\ trace (sys st') = trace (sys st) ++ [Ran (connection c) Close false]
    /\ forall opts, getConnection connectionId opts st' = (Ok c, st').
Proof.
  intros Hclose.
  destruct (closeConnection_post connectionId forceClose st) as [_ [[Hok _] | Hc]].
  { rewrite Hclose in Hok. done. }
  destruct Hc as (c & Hc & He & Ha & Hmap & Htrace). rewrite Hclose in *.
  simpl in *. exists c. repeat split; try done; [congruence|].
  intros opts. apply getConnection_cached. by rewrite Hmap.
Qed.

Lemma getConnection_failure_state (connectionId : option jsstring)
  (opts : options) (st st' : state) (e : init_error) :
  getConnection connectionId opts st = (Err e, st') ->
  activeConnections st' = activeConnections st /\ allocated st' = allocated st.
Proof.
  unfold getConnection.
  destruct (activeConnections st !! default (js "default") connectionId) as [c|];
    [done|].
  match goal with |- context [lift ?m st] =>
    destruct (lift_state m st) as [E1 E2]; destruct (lift m st) as [[h|] st1] end;
    [done|].
  intros [= <- <-]. simpl in E1. by subst st1.
Qed.

(** A request whose initialisation fails caches nothing and allocates
    nothing: the registry is as before, so the next request for the
    identifier tries again. *)
Theorem getConnection_failure_caches_nothing (connectionId : option jsstring)
  (opts : options) (st st' : state) (e : init_error) :
  getConnection connectionId opts st = (Err e, st') ->
  activeConnections st' = activeConnections st
  /\ allocated st' = allocated st
  /\ activeConnections st !! default (js "default") connectionId = None
  /\ exists a arg,
       e = FailedToInitialize a
       /\ trace (sys st') = trace (sys st) ++ [Opened a arg None].
Proof.
  unfold getConnection.
  destruct (activeConnections st !! default (js "default") connectionId) as [c|];
    [done|].
  match goal with |- context [initialize ?a ?arg] =>
    set (a0 := a); set (arg0 := arg) end.
  unfold lift, initialize.
  destruct (open a0 arg0 (now (sys st))) as [[h|] w']; simpl; [done|].
  intros [= <- <-]. simpl. repeat split. by exists a0, arg0.
Qed.

(** The database type selects the adapter without regard to case but
    the way it is initialised with regard to case: a type that is
    mysql, postgres or postgresql in another case gets that adapter,
    initialised with the SQLite path instead of a config. *)
Theorem getConnection_type_case (connectionId : option jsstring) (opts : options)
  (st : state) (dbType : jsstring) :
  opt_type opts = Some dbType ->
  truthy dbType = true ->
  dbType ∉ map js ["mysql"; "postgres"; "postgresql"]%string ->
  activeConnections st !! default (js "default") connectionId = None ->
  exists h,
    trace (sys (getConnection connectionId opts st).2)
    = trace (sys st)
      ++ [Opened (getAdapter dbType) (WithPath (or_else (opt_path opts) env_DB_PATH)) h].
Proof.
  intros Htype Htruthy Hexact Hnone.
  assert (Hdb : default (js "sqlite")
                  (or_else (or_else (Some dbType) env_DB_TYPE) (Some (js "sqlite")))
                = dbType).
  { unfold or_else. by rewrite !Htruthy. }
  unfold getConnection. rewrite Hnone. cbv zeta. rewrite Htype, !Hdb.
  rewrite decide_False by (intros ->; apply Hexact; by_evaluation).
  rewrite decide_False
    by (intros [-> | ->]; apply Hexact; by_evaluation).
  unfold lift, initialize.
  destruct (open _ _ _) as [[h|] w']; simpl; eauto.
Qed.

(** The registry keeps its objects apart: if every cached object was
    allocated earlier and no two identifiers share an object, the same
    holds after any request and after any close; it holds of the empty
    registry. *)
Theorem registry_ok_preserved (connectionId : option jsstring) (opts : options)
  (forceClose : bool) (st : state) :
  registry_ok st ->
  registry_ok (getConnection connectionId opts st).2
  /\ registry_ok (closeConnection connectionId forceClose st).2.
Proof.
  intros [Hlt Hinj]. split.
  - destruct (getConnection connectionId opts st) as [[c|e] st'] eqn:Hget.
    + destruct (activeConnections st !! default (js "default") connectionId)
        as [c0|] eqn:Hc0.
      * rewrite (getConnection_cached _ _ _ _ Hc0) in Hget.
        injection Hget as <- <-. by split.
      * destruct (getConnection_fresh _ _ _ _ _ Hc0 Hget)
          as (arg & _ & _ & Href & Halloc & Hmap).
        simpl. split.
        -- intros id c' Hid. rewrite Hmap in Hid.
           apply lookup_insert_Some in Hid as [[_ <-] | [_ Hid]]; [lia|].
           specialize (Hlt _ _ Hid). lia.
        -- intros id1 id2 c1 c2 H1 H2 Hrefs. rewrite Hmap in H1, H2.
           apply lookup_insert_Some in H1 as [[E1 <-] | [N1 H1]];
             apply lookup_insert_Some in H2 as [[E2 <-] | [N2 H2]].
           ++ congruence.
           ++ specialize (Hlt _ _ H2). lia.
           ++ specialize (Hlt _ _ H1). lia.
           ++ eauto.
    + destruct (getConnection_failure_state _ _ _ _ _ Hget) as [Hmap Halloc].
      simpl. split.
      * intros id c Hid. rewrite Hmap in Hid. rewrite Halloc. eauto.
      * intros id1 id2 c1 c2 H1 H2. rewrite Hmap in H1, H2. eauto.
  - destruct (closeConnection_post connectionId forceClose st) as [Halloc Hcases].
    cbn zeta in *.
    destruct Hcases as [[_ Hmap] | (c & _ & _ & _ & Hmap & _)]; split.
    + intros id c Hid. rewrite Hmap in Hid. rewrite Halloc.
      apply lookup_delete_Some in Hid as [_ Hid]. eauto.
    + intros id1 id2 c1 c2 H1 H2. rewrite Hmap in H1, H2.
      apply lookup_delete_Some in H1 as [_ H1].
      apply lookup_delete_Some in H2 as [_ H2]. eauto.
    + intros id c' Hid. rewrite Hmap in Hid. rewrite Halloc. eauto.
    + intros id1 id2 c1 c2 H1 H2. rewrite Hmap in H1, H2. eauto.
Qed.

End RegistryMore.

(** ** The import *)
Section ImportMore.
Context `{Engine}.

Lemma lift_save_registry (db : db_argument) (people : list obj) (st : state) :
  activeConnections (lift (saveToDatabase db people) st).2 = activeConnections st
  /\ allocated (lift (saveToDatabase db people) st).2 = allocated st.
Proof. destruct (lift_state (saveToDatabase db people) st) as [-> _]. done. Qed.




(** Whatever the outcome of an import, no connection stays cached
    under its identifier unless an attempt to close it failed on the
    engine; after a successful import none stays. *)
Theorem processExcelFile_closes
  (parsed : result ExcelParser.parse_error (list obj)) (o : import_options)
  (st : state) :
  let id := default (js "default") (connectionId o) in
  let out := processExcelFile parsed o st in
  (activeConnections out.2 !! id = None
   \/ exists c,
        activeConnections out.2 !! id = Some c
        /\ adapter c <> Postgres
        /\ last (trace (sys out.2)) = Some (Ran (connection c) Close false))
  /\ (forall t, out.1 = Ok t -> activeConnections out.2 !! id = None).
Proof.
  intros id out.
  assert (Hclose : forall (s0 : state) (r : result close_error unit),
             r = (closeConnection (connectionId o) false s0).1 ->
             (r = Ok tt
              /\ activeConnections (closeConnection (connectionId o) false s0).2 !! id
                 = None)
             \/ (exists c,
                   r <> Ok tt
                   /\ activeConnections (closeConnection (connectionId o) false s0).2 !! id
                      = Some c
                   /\ adapter c <> Postgres
                   /\ last (trace (sys (closeConnection (connectionId o) false s0).2))
                      = Some (Ran (connection c) Close false))).
  { intros s0 r ->.
    destruct (closeConnection_post (connectionId o) false s0)
      as [_ [[Hok Hmap] | (c & Hc & He & Ha & Hmap & Htr)]].
    - left. split; [done|]. rewrite Hmap. apply lookup_delete_eq.
    - right. exists c. rewrite He, Hmap, Htr. rewrite last_snoc. done. }
  subst out. unfold processExcelFile.
  destruct (importPeople parsed o st) as [[t|e] st0] eqn:Himp.
  - cbn [fst snd]. unfold importPeople in Himp.
    destruct parsed as [people|e]; [|done].
    destruct (getConnection _ _ st) as [[db|e] st1]; [|done].
    assert (Hend : forall st2 t1,
               match closeConnection (connectionId o) false st2 with
               | (Ok _, st3) => (Ok t1, st3)
               | (Err e, st3) => (Err (CloseError e), st3)
               end = (@Ok import_error totals t, st0) ->
               activeConnections st0 !! id = None).
    { intros st2 t1 Hres.
      destruct (Hclose st2 _ eq_refl) as [[Hok Hgone] | (c & Hbad & _)];
        destruct (closeConnection (connectionId o) false st2) as [[[]|e] st3];
        try done.
      injection Hres as _ <-. exact Hgone. }
    assert (Hgone : activeConnections st0 !! id = None).
    { destruct (_ <=? _) in Himp.
      - destruct (lift _ st1) as [[r|e] st2]; [|done]. by eapply Hend.
      - destruct (saveChunks _ _ _ st1) as [[t1|e] st2]; [|done]. by eapply Hend. }
    split; [by left | done].
  - cbn [fst snd]. split; [|done].
    destruct (Hclose st0 _ eq_refl) as [[_ Hgone] | (c & _ & Hc & Ha & Htr)];
      [by left | right; by exists c].
Qed.

End ImportMore.

Section ImportMoreWitness.


End ImportMoreWitness.

Section RegistryMoreWitnesses.
Import Reference.

Lemma closeConnection_failure_keeps_entry_witness :
  let st' := (closeConnection (H := Faulty.engine) (Some (js "x")) false Faulty.holding).2 in
  closeConnection (H := Faulty.engine) (Some (js "x")) false Faulty.holding
  = (Err (FailedToClose Sqlite), st')
  /\ getConnection (Some (js "x")) no_options st' = (Ok Faulty.cached, st').
Proof.
  intros st'.
  assert (E : closeConnection (H := Faulty.engine) (Some (js "x")) false Faulty.holding
              = (Err (FailedToClose Sqlite), st')) by (vm_compute; reflexivity).
  split; [exact E|].
  destruct (closeConnection_failure_keeps_entry (H := Faulty.engine) _ _ _ _ _ E)
    as (c & Hc & _ & _ & _ & Hget).
  vm_compute in Hc. injection Hc as <-. exact (Hget no_options).
Defined.

Lemma getConnection_failure_caches_nothing_witness :
  let out := getConnection (H := Faulty.engine) None no_options Faulty.start in
  out.1 = Err (FailedToInitialize Sqlite)
  /\ activeConnections out.2 = activeConnections Faulty.start
  /\ allocated out.2 = 0%nat.
Proof.
  intros out.
  assert (E : getConnection (H := Faulty.engine) None no_options Faulty.start
              = (Err (FailedToInitialize Sqlite), out.2)) by (vm_compute; reflexivity).
  destruct (getConnection_failure_caches_nothing (H := Faulty.engine) _ _ _ _ _ E)
    as (Hmap & Halloc & _).
  split; [by vm_compute|]. split; [exact Hmap | exact Halloc].
Defined.

Lemma getConnection_type_case_witness :
  let opts := {| opt_type := Some (js "MySQL"); opt_path := Some (js "people.db");
                 opt_config := None; opt_poolSize := None |} in
  exists h,
    trace (sys (getConnection (H := Sample.engine) None opts Sample.start).2)
    = [Opened Mysql (WithPath (Some (js "people.db"))) h].
Proof.
  intros opts.
  destruct (getConnection_type_case (H := Sample.engine) None opts Sample.start
              (js "MySQL")) as [h Hh];
    [reflexivity | reflexivity | by_evaluation | apply lookup_empty |].
  exists h. rewrite Hh. by vm_compute.
Defined.

Lemma registry_ok_preserved_witness :
  registry_ok Sample.start
  /\ registry_ok (getConnection (H := Sample.engine) (Some (js "x")) no_options
                    Sample.start).2.
Proof.
  assert (H0 : registry_ok Sample.start).
  { split.
    - intros id c Hc. unfold Sample.start in Hc. cbn [activeConnections] in Hc.
      by rewrite lookup_empty in Hc.
    - intros id1 id2 c1 c2 Hc. unfold Sample.start in Hc.
      cbn [activeConnections] in Hc. by rewrite lookup_empty in Hc. }
  split; [exact H0|].
  exact (proj1 (registry_ok_preserved (H := Sample.engine) (Some (js "x")) no_options
                  false Sample.start H0)).
Defined.

Lemma processExcelFile_closes_witness :
  let o := {| connectionId := Some (js "import"); dbOptions := no_options;
              chunkSize := 2 |} in
  activeConnections
    (processExcelFile (H := Sample.engine) (Ok Sample.people) o Sample.start).2
    !! js "import" = None.
Proof.
  intros o.
  destruct (processExcelFile_closes (H := Sample.engine) (Ok Sample.people) o
              Sample.start) as [_ Hok].
  destruct (processExcelFile (H := Sample.engine) (Ok Sample.people) o Sample.start)
    as [[t|e] st'] eqn:E; [|by vm_compute in E].
  exact (Hok t eq_refl).
Defined.

End RegistryMoreWitnesses.

(** ** Headers once more: the normaliser is stable *)
Section HeaderStability.
Import ExcelParser.


Lemma lower_unit_white (c : N) : isWhiteSpace (lower_unit c) = isWhiteSpace c.
Proof.
  unfold lower_unit.
  repeat match goal with
         | |- context [if ?b then _ else _] => destruct b eqn:?
         end; try reflexivity;
    repeat match goal with
           | H : _ && _ = true |- _ => apply andb_true_iff in H as [? ?]
           | H : negb _ = true |- _ => apply negb_true_iff in H
           | H : (_ <=? _) = true |- _ => apply N.leb_le in H
           | H : (_ =? _) = false |- _ => apply N.eqb_neq in H
           end;
    unfold isWhiteSpace;
    repeat match goal with
           | |- context [?a <=? ?b] =>
               destruct (N.leb_spec a b); try lia
           | |- context [?a =? ?b] =>
               destruct (N.eqb_spec a b); try lia
           end; reflexivity.
Qed.






End HeaderStability.


(** ** The schema update of the SQLite adapter *)
Section SchemaFacts.
Import SqliteSchema.




End SchemaFacts.

(** ** The logger's level test *)
Section LoggerFacts.
Import Logger.

Lemma own_level_not_inherited (name : jsstring) (n : N) :
  own_level LOG_LEVELS name = Some n -> name ∉ map js Object_prototype_names.
Proof.
  unfold LOG_LEVELS. cbn [own_level].
  repeat (case_decide; [subst name; intros _; by_evaluation|]). done.
Qed.

(** Whatever LOG_LEVEL is set to: when messages of a level are written,
    so are those of every more severe level; an unknown level is
    treated as info; and error messages are written unless the
    lowercased setting is a name inherited from Object.prototype, in
    which case nothing is written at all. *)
Theorem logger_levels (env_LOG_LEVEL : option jsstring) :
  (forall n m : N, n <= m -> writes env_LOG_LEVEL m = true ->
                   writes env_LOG_LEVEL n = true)
  /\ (level_of (configuredLevel env_LOG_LEVEL) = None ->
      forall n, writes env_LOG_LEVEL n = (n <=? 2))
  /\ (writes env_LOG_LEVEL 0 = false
      <-> configuredLevel env_LOG_LEVEL ∈ map js Object_prototype_names)
  /\ (configuredLevel env_LOG_LEVEL ∈ map js Object_prototype_names ->
      forall n, writes env_LOG_LEVEL n = false).
Proof.
  unfold writes, currentLogLevel, level_of.
  destruct (own_level LOG_LEVELS (configuredLevel env_LOG_LEVEL)) as [k|] eqn:Hown.
  - pose proof (own_level_not_inherited _ _ Hown) as Hnot.
    repeat split; try done.
    + intros n m Hnm Hm. apply N.leb_le in Hm. apply N.leb_le. lia.
    + intros Hz. exfalso. apply N.leb_gt in Hz. lia.
  - destruct (decide (configuredLevel env_LOG_LEVEL ∈ map js Object_prototype_names))
      as [Hin | Hout]; repeat split; try done.
    + intros n m Hnm Hm. apply N.leb_le in Hm. apply N.leb_le. lia.
Qed.

Lemma logger_levels_witness :
  writes (Some (js "WARN")) 3 = false
  /\ writes (Some (js "WARN")) 1 = true
  /\ writes (Some (js "WARN")) 0 = true
  /\ writes (Some (js "Constructor")) 0 = false.
Proof.
  destruct (logger_levels (Some (js "WARN"))) as (Hmono & _).
  destruct (logger_levels (Some (js "Constructor"))) as (_ & _ & _ & Hnone).
  split; [by vm_compute|]. split; [by vm_compute|].
  split; [apply (Hmono 0 1); [lia | by vm_compute]|].
  apply Hnone. by_evaluation.
Defined.

End LoggerFacts.

Section SchemaWitness.
Import SqliteSchema.


End SchemaWitness.

(** ** Saving what was already normalised *)
Section SaveAgain.
Context `{Engine}.

Lemma normalizePersonFields_twice (person : obj) :
  normalizePersonFields (normalizePersonFields person) = normalizePersonFields person.
Proof.
  unfold normalizePersonFields at 1.
  rewrite (applyMappings_fixed (normalizePersonFields person))
    by apply normalizePersonFields_unmapped.
  apply joinName_splitName_idempotent.
Qed.

(** Records that were normalised beforehand are saved through the
    registry exactly like the raw ones: the same commands reach the
    engine and the same result comes back. *)
Theorem saveToDatabase_normalised_again (db : db_argument) (people : list obj) (s : io) :
  saveToDatabase db (map normalizePersonFields people) s = saveToDatabase db people s.
Proof.
  unfold saveToDatabase. rewrite map_map.
  by rewrite (map_ext _ _ normalizePersonFields_twice).
Qed.

End SaveAgain.
